(** * hashi-solver-ui: the grid extraction of [TestPage.processImage]

    A shallow embedding of the pure part of
    [hashi-solver-ui/src/opencv/TestPage.jsx], method [processImage]:
    the candidate test of the first contour loop, the overlap test and the
    loop that collects [values], the axis reconstruction ([uniq_x], [min_delta_x],
    [xs] and their y twins), the assembly of [arr] and its serialization.

    Numbers.  Every number the code handles is a pixel coordinate or a size
    inside an image ([cv.boundingRect], [img.rows], [img.cols]), or a sum,
    difference or product of two of them, all integers below [2^52] in
    absolute value; on such operands the double arithmetic of JavaScript is
    exact, so a number is a [Z] here.  The two divisions,
    [(img.rows * img.cols) / 10] and [delta / min_delta_x], are taken in [Q]:
    for operands of that size the comparison with, and the [Math.round] of,
    the rounded double quotient agree with those of the exact quotient.
    [Number.MAX_VALUE] is the integer [(2^53 - 1) * 2^971].

    Loops.  A counted loop is [for_loop]; an array read is a lookup at the
    loop index.  The section on the loops proves each counted loop equal to a
    recursion over the rest of the array, which the later proofs follow.

    Strings.  A JavaScript string is a [string]; the only characters the code
    tells apart are the ten ASCII digits.

    External parts.  [cv.findContours], [cv.boundingRect] and the Tesseract
    worker are inputs: the bounding rectangles arrive as lists, and the text
    recognised in the crop of a rectangle is a function [recognize]. *)

From Stdlib Require Import ZArith QArith Qround String Ascii List Lia.
From stdpp Require Import base option list sorting strings.

Local Open Scope Z_scope.

(** ** Data *)

(** A [cv.Rect]: [{x, y, width, height}]. *)
Record Rectangle : Type := mkRect {
  rect_x : Z;
  rect_y : Z;
  rect_width : Z;
  rect_height : Z
}.

(** An entry of [values]: [{x, y, v}]. *)
Record Value : Type := mkValue {
  val_x : Z;
  val_y : Z;
  val_v : string
}.

(** A call [cv.rectangle(dst, p1, p2, new cv.Scalar(255), cv.FILLED)]. *)
Record FillOp : Type := mkFill {
  fill_p1 : Z * Z;
  fill_p2 : Z * Z
}.

(** ** Numbers *)

Definition Number_MAX_VALUE : Z := (2 ^ 53 - 1) * 2 ^ 971.

(** [a < b] on quotients. *)
Definition Qltb (a b : Q) : bool := negb (Qle_bool b a).

(** [Math.round]: the nearest integer, a tie going up. *)
Definition Math_round (q : Q) : Z := Qfloor (q + (1 # 2))%Q.

(** ** Loops and arrays *)

(** [for (let i = lo; i < hi; ++i) body], run on the state [s]. *)
Definition for_loop {St : Type} (lo hi : nat) (body : nat -> St -> St)
  (s : St) : St :=
  fold_left (fun s i => body i s) (seq lo (hi - lo)) s.

(** An array read [a[i]] at an index inside the array is [a !!! i]; every
    such read below is at an index the enclosing loop keeps inside. *)
#[global] Instance Rectangle_inhabited : Inhabited Rectangle :=
  populate (mkRect 0 0 0 0).

(** ** Region filter (first contour loop) *)

Definition margin : Z := 3.

Definition area (rect : Rectangle) : Z := rect_width rect * rect_height rect.

(** The condition of the [if] in the first loop. *)
Definition is_candidate (rows cols : Z) (rect : Rectangle) : bool :=
  (10 <? rect_width rect) &&
  (10 <? rect_height rect) &&
  (100 <? area rect) &&
  Qltb (inject_Z (area rect)) (inject_Z (rows * cols) / inject_Z 10)%Q.

Definition fill_of (rect : Rectangle) : FillOp :=
  mkFill (rect_x rect + margin, rect_y rect + margin)
         (rect_x rect + rect_width rect - 2 * margin,
          rect_y rect + rect_height rect - 2 * margin).

(** The first loop: [contours] holds [cv.boundingRect(contours.get(i))] for
    [i = 0, 1, ...]; the result is the sequence of fills painted on [dst]. *)
Definition draw_candidates (rows cols : Z) (contours : list Rectangle)
  : list FillOp :=
  fold_left
    (fun dst rect =>
       if is_candidate rows cols rect then dst ++ [fill_of rect] else dst)
    contours [].

(** ** Overlap test and the [values] loop *)

Definition overlap (r1 r2 : Rectangle) : bool :=
  negb ((rect_x r1 + rect_width r1 <? rect_x r2) ||
        (rect_x r2 + rect_width r2 <? rect_x r1) ||
        (rect_y r1 + rect_height r1 <? rect_y r2) ||
        (rect_y r2 + rect_height r2 <? rect_y r1)).

(** The inner loop [for (let j = 0; j < i; ++j)]; the result is the final
    [skip]. *)
Definition skip_of (rectangles : list Rectangle) (i : nat) (rect : Rectangle)
  : bool :=
  for_loop 0 i
    (fun j skip =>
       let rect2 := rectangles !!! j in
       if overlap rect rect2 then true else skip)
    false.

Definition is_digit (c : ascii) : bool :=
  (48 <=? nat_of_ascii c)%nat && (nat_of_ascii c <=? 57)%nat.

(** The rest of a run of digits that has begun. *)
Fixpoint digit_run (s : string) : string :=
  match s with
  | EmptyString => EmptyString
  | String c s' => if is_digit c then String c (digit_run s') else EmptyString
  end.

(** [text.match(/\d+/)]: the leftmost match, as long as it can be;
    [None] is [null]. *)
Fixpoint match_digits (s : string) : option string :=
  match s with
  | EmptyString => None
  | String c s' =>
      if is_digit c then Some (String c (digit_run s')) else match_digits s'
  end.

(** [(text.match(/\d+/) || [])[0] || "?"]; a match is never empty. *)
Definition value_of_text (text : string) : string :=
  match match_digits text with
  | Some m => m
  | None => "?"%string
  end.

Section Extraction.

(** The text the OCR worker recognises in the crop [img.roi(rect)]. *)
Variable recognize : Rectangle -> string.

Definition value_of_rect (rect : Rectangle) : Value :=
  mkValue (rect_x rect) (rect_y rect) (value_of_text (recognize rect)).

(** The loop [for (let i = 0; i < rectangles.length; ++i)] filling
    [values]. *)
Definition extract_values (rectangles : list Rectangle) : list Value :=
  for_loop 0 (length rectangles)
    (fun i values =>
       let rect := rectangles !!! i in
       let skip := skip_of rectangles i rect in
       if negb skip then values ++ [value_of_rect rect] else values)
    [].

End Extraction.

(** ** Axis reconstruction *)

(** [l.indexOf(a)], scanning from position [i]. *)
Fixpoint indexOf_from {A : Type} `{EqDecision A} (l : list A) (a : A) (i : Z)
  : Z :=
  match l with
  | [] => -1
  | b :: l' => if decide (b = a) then i else indexOf_from l' a (i + 1)
  end.

Definition indexOf {A : Type} `{EqDecision A} (l : list A) (a : A) : Z :=
  indexOf_from l a 0.

(** [if (uniq.indexOf(p) === -1) uniq.push(p)]. *)
Definition push_uniq (uniq : list Z) (p : Z) : list Z :=
  if indexOf uniq p =? -1 then uniq ++ [p] else uniq.

(** The loop [for (let idx in values)] filling [uniq_x] and [uniq_y]. *)
Definition collect_uniq (values : list Value) : list Z * list Z :=
  fold_left
    (fun u v => (push_uniq (fst u) (val_x v), push_uniq (snd u) (val_y v)))
    values ([], []).

(** [uniq.sort((a, b) => a - b)]. *)
Definition sort_numeric (uniq : list Z) : list Z := merge_sort Z.le uniq.

(** [let min_delta = Number.MAX_VALUE;
     for (let i = 1; i < uniq.length; ++i) {...}]. *)
Definition min_delta_of (uniq : list Z) : Z :=
  for_loop 1 (length uniq)
    (fun i min_delta =>
       let delta := uniq !!! i - uniq !!! (i - 1)%nat in
       Z.min delta min_delta)
    Number_MAX_VALUE.

(** An entry of [xs] / [ys]: a number, or [undefined] ([None]). *)
Abbreviation Slot := (option Z).

Definition gap : Slot := Some (-1).

(** [while (num_steps > 1) { xs.push(-1); num_steps--; }], at most [fuel]
    rounds. *)
Fixpoint gap_loop (fuel : nat) (xs : list Slot) (num_steps : Z) : list Slot :=
  match fuel with
  | O => xs
  | S fuel' =>
      if 1 <? num_steps then gap_loop fuel' (xs ++ [gap]) (num_steps - 1)
      else xs
  end.

(** The [while] loop; [Z.to_nat num_steps] rounds are enough
    (see [gap_loop_enough]). *)
Definition push_gaps (xs : list Slot) (num_steps : Z) : list Slot :=
  gap_loop (Z.to_nat num_steps) xs num_steps.

(** [let xs = [uniq[0]]; for (let i = 1; i < uniq.length; ++i) {...}];
    [uniq[0]] is [undefined] when [uniq] is empty.  The loop body runs only
    when [uniq] has two entries or more, and then [min_delta] is positive
    (see [min_delta_of_pos]), so the quotient is that of the code. *)
Definition build_axis (min_delta : Z) (uniq : list Z) : list Slot :=
  for_loop 1 (length uniq)
    (fun i xs =>
       let delta := uniq !!! i - uniq !!! (i - 1)%nat in
       let num_steps := Math_round (inject_Z delta / inject_Z min_delta)%Q in
       let xs := push_gaps xs num_steps in
       xs ++ [Some (uniq !!! i)])
    [uniq !! 0%nat].

(** ** Grid assembly and serialization *)

Abbreviation Grid := (list (list string)).

(** The nested loops filling [arr] with [" "]: [arr[i] = []] and
    [arr[i][j] = " "] each assign at the index that is the length so far, so
    each appends. *)
Definition blank_grid (ys xs : list Slot) : Grid :=
  for_loop 0 (length ys)
    (fun i arr =>
       let row :=
         for_loop 0 (length xs) (fun j row => row ++ [" "%string]) [] in
       arr ++ [row])
    [].

(** [row[x] = v].  A negative [x] sets a property that is no element; an [x]
    past the end extends the row (a hole prints as the empty string). *)
Definition set_row (row : list string) (x : Z) (v : string) : list string :=
  if x <? 0 then row
  else if x <? Z.of_nat (length row) then <[Z.to_nat x := v]> row
  else row ++ replicate (Z.to_nat x - length row) ""%string ++ [v].

(** [arr[y][x] = v]; [None] is the TypeError raised when [arr[y]] is
    [undefined]. *)
Definition set_cell (arr : Grid) (y x : Z) (v : string) : option Grid :=
  if (y <? 0) || (Z.of_nat (length arr) <=? y) then None
  else
    match arr !! Z.to_nat y with
    | Some row => Some (<[Z.to_nat y := set_row row x v]> arr)
    | None => None
    end.

(** The loop writing the values into [arr]. *)
Definition place_values (xs ys : list Slot) (values : list Value) (arr : Grid)
  : option Grid :=
  fold_left
    (fun arr v =>
       match arr with
       | Some arr =>
           let x := indexOf xs (Some (val_x v)) in
           let y := indexOf ys (Some (val_y v)) in
           set_cell arr y x (val_v v)
       | None => None
       end)
    values (Some arr).

Definition newline : string := String (ascii_of_nat 10) EmptyString.

(** [l.join(sep)]. *)
Definition join (sep : string) (l : list string) : string :=
  String.concat sep l.

(** [arr.map((r) => r.join("")).join("\n")]. *)
Definition serialize (arr : Grid) : string :=
  join newline (map (join ""%string) arr).

Definition uniq_x (values : list Value) : list Z :=
  sort_numeric (fst (collect_uniq values)).

Definition uniq_y (values : list Value) : list Z :=
  sort_numeric (snd (collect_uniq values)).

Definition min_delta_x (values : list Value) : Z := min_delta_of (uniq_x values).

Definition min_delta_y (values : list Value) : Z := min_delta_of (uniq_y values).

Definition axis_xs (values : list Value) : list Slot :=
  build_axis (min_delta_x values) (uniq_x values).

Definition axis_ys (values : list Value) : list Slot :=
  build_axis (min_delta_y values) (uniq_y values).

(** [arr] after both loops; [None] when an exception was raised. *)
Definition build_grid (values : list Value) : option Grid :=
  place_values (axis_xs values) (axis_ys values) values
    (blank_grid (axis_ys values) (axis_xs values)).

(** The string handed to [setState] as [text]; [None] when an exception was
    raised before. *)
Definition grid_text (values : list Value) : option string :=
  serialize <$> build_grid values.

(** From [rectangles] to [text]. *)
Definition processImage_text (recognize : Rectangle -> string)
  (rectangles : list Rectangle) : option string :=
  grid_text (extract_values recognize rectangles).

(** ** The example of the specification *)

Definition example_values : list Value :=
  [ mkValue 0 0 "3"; mkValue 20 0 "1"; mkValue 60 0 "2"; mkValue 0 20 "4" ].

(** * Vocabulary of the properties *)

(** ** The loops, as recursions over the rest of the array *)

(** The inner loop over [earlier = rectangles[0..i)]. *)
Definition skip_loop (rect : Rectangle) (earlier : list Rectangle) : bool :=
  fold_left
    (fun skip rect2 => if overlap rect rect2 then true else skip)
    earlier false.

(** The outer loop from index [i = length earlier] on: [earlier] is
    [rectangles[0..i)], [rest] is [rectangles[i..]]. *)
Fixpoint values_loop (recognize : Rectangle -> string)
  (earlier rest : list Rectangle) (values : list Value) : list Value :=
  match rest with
  | [] => values
  | rect :: rest' =>
      let skip := skip_loop rect earlier in
      values_loop recognize (earlier ++ [rect]) rest'
        (if negb skip then values ++ [value_of_rect recognize rect]
         else values)
  end.

(** The loop computing [min_delta], at an index [i >= 1]: [prev] is
    [uniq[i - 1]], [rest] is [uniq[i..]]. *)
Fixpoint min_delta_loop (prev : Z) (rest : list Z) (min_delta : Z) : Z :=
  match rest with
  | [] => min_delta
  | cur :: rest' =>
      let delta := cur - prev in
      min_delta_loop cur rest' (Z.min delta min_delta)
  end.

(** The loop building [xs], at an index [i >= 1]: [prev] is [uniq[i - 1]],
    [rest] is [uniq[i..]]. *)
Fixpoint axis_loop (min_delta prev : Z) (rest : list Z) (xs : list Slot)
  : list Slot :=
  match rest with
  | [] => xs
  | cur :: rest' =>
      let delta := cur - prev in
      let num_steps := Math_round (inject_Z delta / inject_Z min_delta)%Q in
      let xs := push_gaps xs num_steps in
      axis_loop min_delta cur rest' (xs ++ [Some cur])
  end.

(** ** Rectangles *)

(** The four conditions of the filter, the last one on the exact quotient. *)
Definition plausible (rows cols : Z) (rect : Rectangle) : Prop :=
  10 < rect_width rect /\
  10 < rect_height rect /\
  100 < rect_width rect * rect_height rect /\
  (inject_Z (rect_width rect * rect_height rect)
   < inject_Z (rows * cols) / inject_Z 10)%Q.

#[global] Instance plausible_dec rows cols rect :
  Decision (plausible rows cols rect).
Proof. unfold plausible, Qlt. apply _. Defined.

(** The closed spans of two rectangles meet on both axes: they share a point,
    a touching edge or corner included. *)
Definition spans_meet (r1 r2 : Rectangle) : Prop :=
  exists px py : Z,
    (rect_x r1 <= px <= rect_x r1 + rect_width r1) /\
    (rect_x r2 <= px <= rect_x r2 + rect_width r2) /\
    (rect_y r1 <= py <= rect_y r1 + rect_height r1) /\
    (rect_y r2 <= py <= rect_y r2 + rect_height r2).

(** Sizes are not negative. *)
Definition well_formed (rect : Rectangle) : Prop :=
  0 <= rect_width rect /\ 0 <= rect_height rect.

(** The rectangle at index [i] meets no rectangle at an earlier index. *)
Definition first_seen (rectangles : list Rectangle) (i : nat) : Prop :=
  exists rect, rectangles !! i = Some rect /\
    forall j rect2, (j < i)%nat -> rectangles !! j = Some rect2 ->
      ~ spans_meet rect rect2.

(** The indices at which the outer loop takes the branch [if (!skip)]. *)
Fixpoint kept_loop (earlier rest : list Rectangle) : list nat :=
  match rest with
  | [] => []
  | rect :: rest' =>
      (if skip_loop rect earlier then [] else [length earlier])
      ++ kept_loop (earlier ++ [rect]) rest'
  end.

(** ** Axes *)

(** The distinct positions of one axis, sorted, from the positions in the
    order of [values]. *)
Definition uniq_of (positions : list Z) : list Z :=
  sort_numeric (fold_left push_uniq positions []).

(** The differences of consecutive entries: [prev] first, then [rest]. *)
Fixpoint differences_from (prev : Z) (rest : list Z) : list Z :=
  match rest with
  | [] => []
  | cur :: rest' => (cur - prev) :: differences_from cur rest'
  end.

Definition consecutive_differences (uniq : list Z) : list Z :=
  match uniq with
  | [] => []
  | first :: rest => differences_from first rest
  end.

Definition steps_between (min_delta prev cur : Z) : Z :=
  Math_round (inject_Z (cur - prev) / inject_Z min_delta)%Q.

(** What the walk appends from [prev] on. *)
Fixpoint axis_tail (min_delta prev : Z) (rest : list Z) : list Slot :=
  match rest with
  | [] => []
  | cur :: rest' =>
      replicate (Z.to_nat (steps_between min_delta prev cur - 1)) gap
      ++ Some cur :: axis_tail min_delta cur rest'
  end.

(** A non-negative int32, the range of a pixel coordinate. *)
Definition pixel (p : Z) : Prop := 0 <= p < 2 ^ 31.

(** The axis built from the positions of one coordinate. *)
Definition axis_of (positions : list Z) : list Slot :=
  build_axis (min_delta_of (uniq_of positions)) (uniq_of positions).

(** The two axes, to state once what the code does twice. *)
Inductive Axis : Type := X_axis | Y_axis.

Definition position (ax : Axis) (v : Value) : Z :=
  match ax with X_axis => val_x v | Y_axis => val_y v end.

Definition uniq (ax : Axis) (values : list Value) : list Z :=
  match ax with X_axis => uniq_x values | Y_axis => uniq_y values end.

Definition min_delta (ax : Axis) (values : list Value) : Z :=
  match ax with X_axis => min_delta_x values | Y_axis => min_delta_y values end.

Definition axis (ax : Axis) (values : list Value) : list Slot :=
  match ax with X_axis => axis_xs values | Y_axis => axis_ys values end.

(** ** Grid and text *)

(** [arr[i][j]], [None] outside the grid. *)
Definition cell (arr : Grid) (i j : nat) : option string :=
  match arr !! i with
  | Some row => row !! j
  | None => None
  end.

(** [arr] has [rows] rows of [cols] cells each. *)
Definition dims (arr : Grid) (rows cols : nat) : Prop :=
  length arr = rows /\ Forall (fun row => length row = cols) arr.

(** The indices [(y, x)] at which the last loop writes [v]. *)
Definition cell_of (xs ys : list Slot) (v : Value) : Z * Z :=
  (indexOf ys (Some (val_y v)), indexOf xs (Some (val_x v))).

(** What cell [(i, j)] holds once [values] have been written over [init]:
    the string of the last value that goes to this cell. *)
Definition written (xs ys : list Slot) (values : list Value) (i j : nat)
  (init : string) : string :=
  fold_left
    (fun s v =>
       if decide (cell_of xs ys v = (Z.of_nat i, Z.of_nat j)) then val_v v
       else s)
    values init.

(** Every character of [s] satisfies [P]. *)
Definition string_all (P : ascii -> Prop) (s : string) : Prop :=
  Forall P (list_ascii_of_string s).

(** Two values of which one is a run of two digits. *)
Definition two_digit_values : list Value :=
  [ mkValue 0 0 "12"; mkValue 0 20 "3" ].

(** The ten decimal digits. *)
Definition decimal_digit (c : ascii) : Prop :=
  In c ["0"; "1"; "2"; "3"; "4"; "5"; "6"; "7"; "8"; "9"]%char.

(** The characters the specification allows in a row of the text. *)
Definition spec_char (c : ascii) : Prop :=
  In c ["1"; "2"; "3"; "4"; "5"; "6"; "7"; "8"; "9"; "?"; " "]%char.

(** The characters of the text: digits, the unknown mark, the blank and the
    newline between rows. *)
Definition text_char (c : ascii) : Prop :=
  decimal_digit c \/ c = "?"%char \/ c = " "%char \/ c = ascii_of_nat 10.

Definition starts_with_digit (s : string) : bool :=
  match s with
  | EmptyString => false
  | String c _ => is_digit c
  end.

(** * The rest of the component *)

(** ** The text area: the hint and the button replacing [?] *)

(** [s.indexOf(c)] for a string [c] of one character, scanning from
    position [i]. *)
Fixpoint string_indexOf_from (c : ascii) (s : string) (i : Z) : Z :=
  match s with
  | EmptyString => -1
  | String b s' =>
      if Ascii.eqb b c then i else string_indexOf_from c s' (i + 1)
  end.

Definition string_indexOf (c : ascii) (s : string) : Z :=
  string_indexOf_from c s 0.

(** [s.replace(pattern, replacement)] for strings [pattern] and
    [replacement] of one character each (the replacement is no [$] pattern):
    the first occurrence is replaced, and only that one. *)
Fixpoint string_replace (pattern replacement : ascii) (s : string) : string :=
  match s with
  | EmptyString => EmptyString
  | String b s' =>
      if Ascii.eqb b pattern then String replacement s'
      else String b (string_replace pattern replacement s')
  end.

(** [this.state.text.indexOf("?") >= 0]: the paragraph with the button is
    rendered. *)
Definition question_hint (text : string) : bool :=
  0 <=? string_indexOf "?"%char text.

(** [this.state.text.replace("?", "8")], the new text on a click. *)
Definition replace_question (text : string) : string :=
  string_replace "?"%char "8"%char text.

(** ** The state and its handlers *)




Section Component.

(** [solve] of [hashi-solver-wasm]. *)
Variable solve : string -> Z -> string.

(** The text the OCR worker recognises in the crop of a rectangle. *)
Variable recognize : Rectangle -> string.





End Component.

(** * Vocabulary of the further properties *)

(** The rectangles for which the outer loop takes the branch [if (!skip)]. *)
Fixpoint kept_rects (earlier rest : list Rectangle) : list Rectangle :=
  match rest with
  | [] => []
  | rect :: rest' =>
      (if skip_loop rect earlier then [] else [rect])
      ++ kept_rects (earlier ++ [rect]) rest'
  end.

(** The pixel position of a value. *)
Definition origin (v : Value) : Z * Z := (val_x v, val_y v).

(** How often [c] occurs in [s]. *)
Fixpoint count_char (c : ascii) (s : string) : nat :=
  match s with
  | EmptyString => 0
  | String b s' => (if Ascii.eqb b c then 1 else 0) + count_char c s'
  end.

(** [c] occurs in [s]. *)
Definition char_in (c : ascii) (s : string) : Prop :=
  In c (list_ascii_of_string s).

(** [n] clicks on the replace button. *)
Definition replace_clicks (n : nat) (text : string) : string :=
  Nat.iter n replace_question text.

(** * Properties *)

(** ** The loops *)

Lemma for_loop_done {St : Type} (lo hi : nat) (body : nat -> St -> St) s :
  (hi <= lo)%nat -> for_loop lo hi body s = s.
Proof.
  intros Hle. unfold for_loop.
  by replace (hi - lo)%nat with 0%nat by lia.
Qed.

Lemma for_loop_step {St : Type} (lo hi : nat) (body : nat -> St -> St) s :
  (lo < hi)%nat -> for_loop lo hi body s = for_loop (S lo) hi body (body lo s).
Proof.
  intros Hlt. unfold for_loop.
  by replace (hi - lo)%nat with (S (hi - S lo)) by lia.
Qed.

(** A loop that appends the same element each round. *)
Lemma for_loop_push {A : Type} (lo hi : nat) (x : A) (l : list A) :
  for_loop lo hi (fun _ l => l ++ [x]) l = l ++ replicate (hi - lo) x.
Proof.
  unfold for_loop. generalize (hi - lo)%nat as n. intros n.
  revert lo l. induction n as [|n IH]; intros lo l; simpl.
  - by rewrite app_nil_r.
  - rewrite IH, <- app_assoc. done.
Qed.

(** A loop reading the array at its index visits the array in order. *)
Lemma for_loop_elements {A St : Type} `{Inhabited A}
  (body : A -> St -> St) (pre l post : list A) (s : St) :
  for_loop (length pre) (length pre + length l)
    (fun i s => body ((pre ++ l ++ post) !!! i) s) s
  = fold_left (fun s x => body x s) l s.
Proof.
  revert pre s. induction l as [|x l IH]; intros pre s; simpl.
  - apply for_loop_done. lia.
  - rewrite for_loop_step by lia.
    rewrite list_lookup_total_middle by done.
    replace (length pre + S (length l))%nat
      with (length (pre ++ [x]) + length l)%nat
      by (rewrite length_app; simpl; lia).
    replace (S (length pre)) with (length (pre ++ [x]))
      by (rewrite length_app; simpl; lia).
    rewrite <- (IH (pre ++ [x]) (body x s)).
    by rewrite <- (app_assoc pre [x] (l ++ post)).
Qed.

Lemma skip_of_skip_loop rectangles i rect :
  (i <= length rectangles)%nat ->
  skip_of rectangles i rect = skip_loop rect (take i rectangles).
Proof.
  intros Hi. unfold skip_of, skip_loop.
  rewrite <- (for_loop_elements
                (fun rect2 skip => if overlap rect rect2 then true else skip)
                [] (take i rectangles) (drop i rectangles)).
  simpl. by rewrite take_drop, length_take_le.
Qed.

Lemma extract_values_from recognize earlier rest values :
  for_loop (length earlier) (length (earlier ++ rest))
    (fun i values =>
       let rect := (earlier ++ rest) !!! i in
       let skip := skip_of (earlier ++ rest) i rect in
       if negb skip then values ++ [value_of_rect recognize rect] else values)
    values
  = values_loop recognize earlier rest values.
Proof.
  revert earlier values.
  induction rest as [|rect rest IH]; intros earlier values; simpl.
  - apply for_loop_done. rewrite app_nil_r. lia.
  - rewrite for_loop_step by (rewrite length_app; simpl; lia).
    rewrite list_lookup_total_middle by done.
    rewrite skip_of_skip_loop by (rewrite length_app; lia).
    rewrite take_app_length.
    rewrite <- IH, <- (app_assoc earlier [rect] rest).
    by replace (length (earlier ++ [rect])) with (S (length earlier))
      by (rewrite length_app; simpl; lia).
Qed.

Lemma extract_values_loop recognize rectangles :
  extract_values recognize rectangles
  = values_loop recognize [] rectangles [].
Proof. apply (extract_values_from recognize [] rectangles []). Qed.

Lemma lookup_total_adjacent (pre : list Z) (prev cur : Z) (rest : list Z) :
  (pre ++ prev :: cur :: rest) !!! S (length pre) = cur /\
  (pre ++ prev :: cur :: rest) !!! (S (length pre) - 1)%nat = prev.
Proof.
  split; apply list_lookup_total_correct.
  - rewrite lookup_app_r by lia.
    by replace (S (length pre) - length pre)%nat with 1%nat by lia.
  - replace (S (length pre) - 1)%nat with (length pre) by lia.
    by apply list_lookup_middle.
Qed.

Lemma min_delta_from pre prev rest min_delta :
  for_loop (S (length pre)) (length (pre ++ prev :: rest))
    (fun i min_delta =>
       let delta :=
         (pre ++ prev :: rest) !!! i - (pre ++ prev :: rest) !!! (i - 1)%nat in
       Z.min delta min_delta)
    min_delta
  = min_delta_loop prev rest min_delta.
Proof.
  revert pre prev min_delta.
  induction rest as [|cur rest IH]; intros pre prev min_delta; simpl.
  - apply for_loop_done. rewrite length_app. simpl. lia.
  - rewrite for_loop_step by (rewrite length_app; simpl; lia).
    cbv zeta. destruct (lookup_total_adjacent pre prev cur rest) as [-> ->].
    rewrite <- (IH (pre ++ [prev]) cur).
    rewrite <- (app_assoc pre [prev] (cur :: rest)).
    by replace (length (pre ++ [prev])) with (S (length pre))
      by (rewrite length_app; simpl; lia).
Qed.

Lemma min_delta_of_loop uniq :
  min_delta_of uniq
  = match uniq with
    | [] => Number_MAX_VALUE
    | first :: rest => min_delta_loop first rest Number_MAX_VALUE
    end.
Proof.
  destruct uniq as [|first rest]; [done|].
  apply (min_delta_from [] first rest).
Qed.

Lemma build_axis_from min_delta pre prev rest xs :
  for_loop (S (length pre)) (length (pre ++ prev :: rest))
    (fun i xs =>
       let delta :=
         (pre ++ prev :: rest) !!! i - (pre ++ prev :: rest) !!! (i - 1)%nat in
       let num_steps := Math_round (inject_Z delta / inject_Z min_delta)%Q in
       let xs := push_gaps xs num_steps in
       xs ++ [Some ((pre ++ prev :: rest) !!! i)])
    xs
  = axis_loop min_delta prev rest xs.
Proof.
  revert pre prev xs.
  induction rest as [|cur rest IH]; intros pre prev xs; simpl.
  - apply for_loop_done. rewrite length_app. simpl. lia.
  - rewrite for_loop_step by (rewrite length_app; simpl; lia).
    cbv zeta. destruct (lookup_total_adjacent pre prev cur rest) as [-> ->].
    rewrite <- (IH (pre ++ [prev]) cur).
    rewrite <- (app_assoc pre [prev] (cur :: rest)).
    by replace (length (pre ++ [prev])) with (S (length pre))
      by (rewrite length_app; simpl; lia).
Qed.

Lemma build_axis_loop min_delta uniq :
  build_axis min_delta uniq
  = match uniq with
    | [] => [None]
    | first :: rest => axis_loop min_delta first rest [Some first]
    end.
Proof.
  destruct uniq as [|first rest]; [done|].
  apply (build_axis_from min_delta [] first rest).
Qed.

Lemma blank_grid_replicate ys xs :
  blank_grid ys xs = replicate (length ys) (replicate (length xs) " "%string).
Proof.
  unfold blank_grid. rewrite (for_loop_push 0 (length xs)). simpl.
  rewrite (for_loop_push 0 (length ys)). simpl.
  by rewrite !Nat.sub_0_r.
Qed.

(** ** Numbers *)

Lemma Qltb_lt (a b : Q) : Qltb a b = true <-> (a < b)%Q.
Proof.
  unfold Qltb. rewrite negb_true_iff, <- not_true_iff_false, Qle_bool_iff.
  split; [apply Qnot_le_lt | apply Qlt_not_le].
Qed.

(** Comparing with a tenth, without the quotient. *)
Lemma Qlt_tenth (a n : Z) :
  (inject_Z a < inject_Z n / inject_Z 10)%Q <-> 10 * a < n.
Proof.
  unfold Qlt, Qdiv, Qmult, Qinv, inject_Z; simpl. lia.
Qed.

(** Rounding the quotient of two integers, without the quotient. *)
Lemma Math_round_div (d m : Z) :
  0 < m -> Math_round (inject_Z d / inject_Z m)%Q = (2 * d + m) / (2 * m).
Proof.
  intros Hm. destruct m as [|p|p]; try lia.
  unfold Math_round, Qfloor, Qdiv, Qmult, Qinv, Qplus, inject_Z; simpl.
  f_equal; lia.
Qed.

Lemma Math_round_multiple (k m : Z) :
  0 < m -> Math_round (inject_Z (k * m) / inject_Z m)%Q = k.
Proof.
  intros Hm. rewrite Math_round_div by done.
  symmetry. apply Z.div_unique with (r := m); lia.
Qed.

Example Math_round_ties_up :
  Math_round (inject_Z 3 / inject_Z 2)%Q = 2 /\
  Math_round (inject_Z 29 / inject_Z 20)%Q = 1 /\
  Math_round (inject_Z 30 / inject_Z 20)%Q = 2.
Proof. repeat split. Qed.

(** ** Region filter *)

(** A 11 x 11 rectangle passes in a 45 x 27 image ([121 < 121.5]) and fails in
    a 40 x 30 one ([121 < 120] is false). *)
Example is_candidate_exact_quotient :
  is_candidate 45 27 (mkRect 0 0 11 11) = true /\
  is_candidate 40 30 (mkRect 0 0 11 11) = false.
Proof. split; reflexivity. Qed.

Lemma is_candidate_plausible rows cols rect :
  is_candidate rows cols rect = true <-> plausible rows cols rect.
Proof.
  unfold is_candidate, plausible, area.
  rewrite !andb_true_iff, !Z.ltb_lt, Qltb_lt. tauto.
Qed.

Lemma draw_candidates_from rows cols contours dst :
  fold_left
    (fun dst rect =>
       if is_candidate rows cols rect then dst ++ [fill_of rect] else dst)
    contours dst
  = dst ++ (fill_of <$> filter (plausible rows cols) contours).
Proof.
  revert dst. induction contours as [|rect contours IH]; intros dst; simpl.
  - by rewrite app_nil_r.
  - rewrite IH, filter_cons.
    destruct (is_candidate rows cols rect) eqn:E.
    + rewrite decide_True by (by apply is_candidate_plausible).
      by rewrite <- app_assoc.
    + rewrite decide_False; [done|].
      intros H. apply is_candidate_plausible in H. congruence.
Qed.

(** C7. The first contour loop accepts (paints the marker of) exactly the
    rectangles with [width > 10], [height > 10], [width * height > 100] and
    [width * height < (rows * cols) / 10], in the order of the input; the
    accepted rectangles are a subsequence of the input, which the loop only
    reads. *)
Theorem region_filter_subsequence (rows cols : Z) (contours : list Rectangle) :
  draw_candidates rows cols contours
  = fill_of <$> filter (plausible rows cols) contours
  /\ filter (plausible rows cols) contours `sublist_of` contours
  /\ (forall rect, rect ∈ filter (plausible rows cols) contours <->
        rect ∈ contours /\
        10 < rect_width rect /\ 10 < rect_height rect /\
        100 < rect_width rect * rect_height rect /\
        10 * (rect_width rect * rect_height rect) < rows * cols).
Proof.
  split; [|split].
  - unfold draw_candidates. by rewrite draw_candidates_from.
  - apply sublist_filter.
  - intros rect. rewrite list_elem_of_filter. unfold plausible.
    rewrite Qlt_tenth. tauto.
Qed.

(** ** Overlap resolution *)

Lemma overlap_spans_meet r1 r2 :
  well_formed r1 -> well_formed r2 ->
  overlap r1 r2 = true <-> spans_meet r1 r2.
Proof.
  intros [Hw1 Hh1] [Hw2 Hh2]. unfold overlap, spans_meet.
  rewrite negb_true_iff, !orb_false_iff, !Z.ltb_ge. split.
  - intros [[[H1 H2] H3] H4].
    exists (Z.max (rect_x r1) (rect_x r2)), (Z.max (rect_y r1) (rect_y r2)).
    lia.
  - intros (px & py & H). lia.
Qed.

(** Touching edges and corners overlap; one pixel apart does not. *)
Example overlap_touching :
  overlap (mkRect 0 0 20 20) (mkRect 20 0 5 5) = true /\
  overlap (mkRect 0 0 20 20) (mkRect 20 20 5 5) = true /\
  overlap (mkRect 0 0 20 20) (mkRect 21 0 5 5) = false.
Proof. repeat split. Qed.

Lemma overlap_sym r1 r2 : overlap r1 r2 = overlap r2 r1.
Proof.
  unfold overlap. f_equal.
  destruct (rect_x r1 + rect_width r1 <? rect_x r2),
           (rect_x r2 + rect_width r2 <? rect_x r1),
           (rect_y r1 + rect_height r1 <? rect_y r2),
           (rect_y r2 + rect_height r2 <? rect_y r1); reflexivity.
Qed.

Lemma skip_loop_from rect earlier skip :
  fold_left (fun skip rect2 => if overlap rect rect2 then true else skip)
    earlier skip
  = skip || existsb (overlap rect) earlier.
Proof.
  revert skip. induction earlier as [|rect2 earlier IH]; intros skip; simpl.
  - by rewrite orb_false_r.
  - rewrite IH. destruct (overlap rect rect2), skip; simpl; reflexivity.
Qed.

Lemma skip_loop_false rect earlier :
  skip_loop rect earlier = false <->
  forall rect2, rect2 ∈ earlier -> overlap rect rect2 = false.
Proof.
  unfold skip_loop. rewrite skip_loop_from. simpl.
  rewrite <- not_true_iff_false, existsb_exists. split.
  - intros H rect2 Hin. apply not_true_iff_false. intros Ho.
    apply H. exists rect2. by rewrite <- list_elem_of_In.
  - intros H (rect2 & Hin & Ho). apply list_elem_of_In in Hin.
    apply H in Hin. congruence.
Qed.

Lemma values_loop_kept recognize earlier rest values :
  values_loop recognize earlier rest values
  = values ++
    omap (fun i => value_of_rect recognize <$> (earlier ++ rest) !! i)
         (kept_loop earlier rest).
Proof.
  revert earlier values.
  induction rest as [|rect rest IH]; intros earlier values; simpl.
  - by rewrite app_nil_r.
  - rewrite IH, <- (app_assoc earlier [rect] rest). simpl.
    destruct (skip_loop rect earlier); simpl; [done|].
    rewrite list_lookup_middle by done. simpl.
    by rewrite <- app_assoc.
Qed.

Lemma kept_loop_ge earlier rest i :
  i ∈ kept_loop earlier rest -> (length earlier <= i)%nat.
Proof.
  revert earlier. induction rest as [|rect rest IH]; intros earlier; simpl.
  - by intros ?%elem_of_nil.
  - rewrite elem_of_app. intros [H|H].
    + destruct (skip_loop rect earlier).
      * by apply elem_of_nil in H.
      * apply list_elem_of_singleton in H. lia.
    + apply IH in H. rewrite length_app in H. simpl in H. lia.
Qed.

Lemma kept_loop_sorted earlier rest : StronglySorted lt (kept_loop earlier rest).
Proof.
  revert earlier. induction rest as [|rect rest IH]; intros earlier; simpl.
  - constructor.
  - destruct (skip_loop rect earlier); simpl; [apply IH|].
    constructor; [apply IH|].
    apply Forall_forall. intros i Hi. apply kept_loop_ge in Hi.
    rewrite length_app in Hi. simpl in Hi. lia.
Qed.

Lemma kept_loop_elem earlier rest i :
  i ∈ kept_loop earlier rest <->
  (length earlier <= i)%nat /\
  exists rect, (earlier ++ rest) !! i = Some rect /\
    skip_loop rect (take i (earlier ++ rest)) = false.
Proof.
  revert earlier. induction rest as [|rect rest IH]; intros earlier; simpl.
  - split; [by intros ?%elem_of_nil|].
    intros (Hle & r & Hr & _). apply lookup_lt_Some in Hr.
    rewrite app_nil_r in Hr. lia.
  - rewrite elem_of_app, IH, <- (app_assoc earlier [rect] rest). simpl.
    rewrite length_app. simpl. split.
    + intros [H|H].
      * destruct (skip_loop rect earlier) eqn:E; [by apply elem_of_nil in H|].
        apply list_elem_of_singleton in H. subst i. split; [lia|].
        exists rect. rewrite list_lookup_middle by done.
        by rewrite take_app_length.
      * destruct H as (Hle & r & Hr & Hs). split; [lia|]. by exists r.
    + intros (Hle & r & Hr & Hs).
      destruct (decide (i = length earlier)) as [->|Hne].
      * left. rewrite list_lookup_middle in Hr by done.
        injection Hr as <-. rewrite take_app_length in Hs.
        rewrite Hs. by apply list_elem_of_singleton.
      * right. split; [lia|]. by exists r.
Qed.

Lemma elem_of_take_lookup {A : Type} (l : list A) (i : nat) (a : A) :
  a ∈ take i l <-> exists j, (j < i)%nat /\ l !! j = Some a.
Proof.
  rewrite list_elem_of_lookup. split.
  - intros [j Hj]. exists j.
    assert (j < i)%nat.
    { apply lookup_lt_Some in Hj. rewrite length_take in Hj. lia. }
    split; [done|]. by rewrite lookup_take_lt in Hj.
  - intros (j & Hlt & Hj). exists j. by rewrite lookup_take_lt.
Qed.

Lemma spans_meet_sym r1 r2 : spans_meet r1 r2 -> spans_meet r2 r1.
Proof. intros (px & py & H). exists px, py. tauto. Qed.

Lemma kept_first_seen rectangles i :
  Forall well_formed rectangles ->
  i ∈ kept_loop [] rectangles <-> first_seen rectangles i.
Proof.
  intros Hwf. rewrite Forall_forall in Hwf.
  rewrite kept_loop_elem. simpl. unfold first_seen. split.
  - intros (_ & rect & Hr & Hs). exists rect. split; [done|].
    intros j rect2 Hlt Hj Hmeet.
    rewrite skip_loop_false in Hs.
    assert (overlap rect rect2 = false) as Ho.
    { apply Hs, elem_of_take_lookup. eauto. }
    apply overlap_spans_meet in Hmeet; [congruence| |].
    + apply Hwf. by eapply list_elem_of_lookup_2.
    + apply Hwf. by eapply list_elem_of_lookup_2.
  - intros (rect & Hr & Hfirst). split; [lia|]. exists rect. split; [done|].
    apply skip_loop_false. intros rect2 (j & Hlt & Hj)%elem_of_take_lookup.
    apply not_true_iff_false. intros Ho.
    apply (Hfirst j rect2 Hlt Hj).
    apply overlap_spans_meet; [| |done].
    + apply Hwf. by eapply list_elem_of_lookup_2.
    + apply Hwf. by eapply list_elem_of_lookup_2.
Qed.

(** C3. The values loop keeps the rectangle at index [i] exactly when it
    meets no rectangle at an earlier index of the input, dropped ones
    included, where two rectangles meet when their closed spans share a point on
    both axes; the kept rectangles appear in input order, one value each, and
    no two of them meet.  Of [{0,0,20,20}] followed by [{5,5,20,20}] only the
    first is kept. *)
Theorem overlap_resolver_first_wins
  (recognize : Rectangle -> string) (rectangles : list Rectangle) :
  Forall well_formed rectangles ->
  (forall r1 r2, r1 ∈ rectangles -> r2 ∈ rectangles ->
     (overlap r1 r2 = true <-> spans_meet r1 r2)) /\
  (exists kept : list nat,
     StronglySorted lt kept /\
     (forall i, i ∈ kept <-> first_seen rectangles i) /\
     extract_values recognize rectangles
     = omap (fun i => value_of_rect recognize <$> rectangles !! i) kept /\
     length (extract_values recognize rectangles) = length kept /\
     (forall i j ri rj, i ∈ kept -> j ∈ kept -> i <> j ->
        rectangles !! i = Some ri -> rectangles !! j = Some rj ->
        ~ spans_meet ri rj)) /\
  extract_values recognize [mkRect 0 0 20 20; mkRect 5 5 20 20]
  = [value_of_rect recognize (mkRect 0 0 20 20)].
Proof.
  intros Hwf. split; [|split; [|reflexivity]].
  { intros r1 r2 H1 H2. rewrite Forall_forall in Hwf.
    apply overlap_spans_meet; by apply Hwf. }
  exists (kept_loop [] rectangles).
  assert (extract_values recognize rectangles
          = omap (fun i => value_of_rect recognize <$> rectangles !! i)
              (kept_loop [] rectangles)) as Hvalues.
  { by rewrite extract_values_loop, values_loop_kept. }
  split; [apply kept_loop_sorted|].
  split; [intros i; by apply kept_first_seen|].
  split; [done|]. split.
  - rewrite Hvalues. clear Hvalues.
    assert (forall i, i ∈ kept_loop [] rectangles ->
              is_Some (rectangles !! i)) as Hsome.
    { intros i (_ & rect & Hr & _)%kept_loop_elem. by exists rect. }
    induction (kept_loop [] rectangles) as [|i kept IH]; [done|]. simpl.
    destruct (Hsome i) as [rect Hr]; [by left|]. rewrite Hr. simpl.
    f_equal. apply IH. intros j Hj. apply Hsome. by right.
  - intros i j ri rj Hi Hj Hne Hri Hrj Hmeet.
    apply (kept_first_seen _ _ Hwf) in Hi as (ri' & Hri' & Hfi).
    apply (kept_first_seen _ _ Hwf) in Hj as (rj' & Hrj' & Hfj).
    rewrite Hri in Hri'. injection Hri' as <-.
    rewrite Hrj in Hrj'. injection Hrj' as <-.
    destruct (decide (i < j)%nat) as [Hlt|Hge].
    + apply (Hfj i ri Hlt Hri). by apply spans_meet_sym.
    + apply (Hfi j rj); [lia|done|done].
Qed.

Lemma overlap_resolver_first_wins_witness :
  exists kept : list nat,
    (forall i, i ∈ kept <->
       first_seen [mkRect 0 0 20 20; mkRect 5 5 20 20; mkRect 40 0 20 20] i) /\
    length (extract_values (fun _ => "7"%string)
              [mkRect 0 0 20 20; mkRect 5 5 20 20; mkRect 40 0 20 20])
    = length kept.
Proof.
  destruct (overlap_resolver_first_wins (fun _ => "7"%string)
              [mkRect 0 0 20 20; mkRect 5 5 20 20; mkRect 40 0 20 20])
    as (_ & (kept & _ & Hk & _ & Hlen & _) & _).
  - repeat constructor; simpl; lia.
  - exists kept. split; assumption.
Defined.

(** ** [indexOf] *)

Section IndexOf.
Context {A : Type} `{EqDecision A}.

Lemma indexOf_from_notin (l : list A) (a : A) (i : Z) :
  a ∉ l -> indexOf_from l a i = -1.
Proof.
  revert i. induction l as [|b l IH]; intros i Hnot; simpl; [done|].
  rewrite not_elem_of_cons in Hnot. destruct Hnot as [Hne Hnot].
  rewrite decide_False by congruence. by apply IH.
Qed.

Lemma indexOf_from_elem (l : list A) (a : A) (i : Z) :
  a ∈ l ->
  exists n : nat,
    indexOf_from l a i = i + Z.of_nat n /\
    l !! n = Some a /\
    forall m, (m < n)%nat -> l !! m <> Some a.
Proof.
  revert i. induction l as [|b l IH]; intros i Hin; simpl.
  - by apply elem_of_nil in Hin.
  - destruct (decide (b = a)) as [->|Hne].
    + exists 0%nat. split; [lia|]. split; [done|]. lia.
    + apply elem_of_cons in Hin as [->|Hin]; [done|].
      destruct (IH (i + 1) Hin) as (n & Hi & Hn & Hfirst).
      exists (S n). split; [lia|]. split; [done|].
      intros [|m] Hm; simpl; [congruence|]. apply Hfirst. lia.
Qed.

Lemma indexOf_notin (l : list A) (a : A) : a ∉ l -> indexOf l a = -1.
Proof. apply indexOf_from_notin. Qed.

Lemma indexOf_elem (l : list A) (a : A) :
  a ∈ l ->
  exists n : nat,
    indexOf l a = Z.of_nat n /\ l !! n = Some a /\
    forall m, (m < n)%nat -> l !! m <> Some a.
Proof.
  intros Hin. destruct (indexOf_from_elem l a 0 Hin) as (n & Hi & H).
  exists n. split; [unfold indexOf; lia|done].
Qed.

Lemma indexOf_absent_iff (l : list A) (a : A) : indexOf l a = -1 <-> a ∉ l.
Proof.
  split.
  - intros Hi Hin. destruct (indexOf_elem l a Hin) as (n & Hn & _). lia.
  - apply indexOf_notin.
Qed.

Lemma indexOf_range (l : list A) (a : A) :
  a ∈ l -> 0 <= indexOf l a < Z.of_nat (length l).
Proof.
  intros Hin. destruct (indexOf_elem l a Hin) as (n & Hn & Hl & _).
  apply lookup_lt_Some in Hl. lia.
Qed.

End IndexOf.

(** ** Distinct sorted positions *)

Lemma push_uniq_elem uniq p q : q ∈ push_uniq uniq p <-> q ∈ uniq \/ q = p.
Proof.
  unfold push_uniq. destruct (indexOf uniq p =? -1) eqn:E.
  - rewrite elem_of_app, list_elem_of_singleton. tauto.
  - apply Z.eqb_neq in E. rewrite indexOf_absent_iff in E.
    apply dec_stable in E. split; [tauto|]. intros [?| ->]; done.
Qed.

Lemma push_uniq_NoDup uniq p : NoDup uniq -> NoDup (push_uniq uniq p).
Proof.
  intros Hnd. unfold push_uniq. destruct (indexOf uniq p =? -1) eqn:E; [|done].
  apply Z.eqb_eq in E. rewrite indexOf_absent_iff in E.
  apply NoDup_app. split; [done|]. split; [|apply NoDup_singleton].
  intros q Hq ->%list_elem_of_singleton. done.
Qed.

Lemma fold_push_uniq_elem positions uniq q :
  q ∈ fold_left push_uniq positions uniq <-> q ∈ uniq \/ q ∈ positions.
Proof.
  revert uniq. induction positions as [|p positions IH]; intros uniq; simpl.
  - rewrite elem_of_nil. tauto.
  - rewrite IH, push_uniq_elem, elem_of_cons. tauto.
Qed.

Lemma fold_push_uniq_NoDup positions uniq :
  NoDup uniq -> NoDup (fold_left push_uniq positions uniq).
Proof.
  revert uniq. induction positions as [|p positions IH]; intros uniq Hnd;
    simpl; [done|].
  by apply IH, push_uniq_NoDup.
Qed.

Lemma collect_uniq_from values ux uy :
  fold_left
    (fun u v => (push_uniq (fst u) (val_x v), push_uniq (snd u) (val_y v)))
    values (ux, uy)
  = (fold_left push_uniq (map val_x values) ux,
     fold_left push_uniq (map val_y values) uy).
Proof.
  revert ux uy. induction values as [|v values IH]; intros ux uy; simpl;
    [done|]. by rewrite IH.
Qed.

Lemma uniq_x_of values : uniq_x values = uniq_of (map val_x values).
Proof. unfold uniq_x, collect_uniq. by rewrite collect_uniq_from. Qed.

Lemma uniq_y_of values : uniq_y values = uniq_of (map val_y values).
Proof. unfold uniq_y, collect_uniq. by rewrite collect_uniq_from. Qed.

Lemma uniq_of_elem positions q : q ∈ uniq_of positions <-> q ∈ positions.
Proof.
  unfold uniq_of, sort_numeric. rewrite merge_sort_Permutation.
  rewrite fold_push_uniq_elem, elem_of_nil. tauto.
Qed.

Lemma uniq_of_NoDup positions : NoDup (uniq_of positions).
Proof.
  unfold uniq_of, sort_numeric. rewrite merge_sort_Permutation.
  apply fold_push_uniq_NoDup, NoDup_nil_2.
Qed.

Lemma uniq_of_Sorted positions : Sorted Z.le (uniq_of positions).
Proof. apply (Sorted_merge_sort Z.le). Qed.

(** Strictly ascending. *)
Lemma uniq_of_ascending positions : StronglySorted Z.lt (uniq_of positions).
Proof.
  pose proof (uniq_of_NoDup positions) as Hnd.
  pose proof (Sorted_StronglySorted Z.le _ (uniq_of_Sorted positions)) as Hs.
  induction Hs as [|p l Hs IH Hall]; [constructor|].
  apply NoDup_cons in Hnd as [Hnot Hnd].
  constructor; [by apply IH|].
  rewrite Forall_forall in Hall |- *. intros q Hq.
  specialize (Hall q Hq). assert (p <> q) by (intros ->; done). lia.
Qed.

Lemma uniq_of_same_set positions1 positions2 :
  (forall p, p ∈ positions1 <-> p ∈ positions2) ->
  uniq_of positions1 = uniq_of positions2.
Proof.
  intros Hset. apply (Sorted_unique Z.le); [apply uniq_of_Sorted..|].
  apply NoDup_Permutation; [apply uniq_of_NoDup..|].
  intros p. by rewrite !uniq_of_elem.
Qed.

(** ** The unit of an axis *)

Lemma Number_MAX_VALUE_large : 2 ^ 53 <= Number_MAX_VALUE.
Proof. intros H. vm_compute in H. discriminate H. Qed.

Lemma min_delta_loop_spec prev rest m :
  min_delta_loop prev rest m <= m /\
  (forall d, d ∈ differences_from prev rest -> min_delta_loop prev rest m <= d) /\
  (min_delta_loop prev rest m = m \/
   min_delta_loop prev rest m ∈ differences_from prev rest).
Proof.
  revert prev m. induction rest as [|cur rest IH]; intros prev m; simpl.
  - split; [lia|]. split; [|by left]. by intros d ?%elem_of_nil.
  - destruct (IH cur (Z.min (cur - prev) m)) as (Hle & Hall & Hin).
    split; [lia|]. split.
    + intros d [->|Hd]%elem_of_cons; [lia|by apply Hall].
    + destruct Hin as [Heq|Hin]; [|right; by right].
      rewrite Heq.
      destruct (Z.min_spec (cur - prev) m) as [[_ ->]|[_ ->]];
        [right; by left|by left].
Qed.

Lemma differences_from_pos prev rest :
  StronglySorted Z.lt (prev :: rest) ->
  Forall (fun d => 0 < d) (differences_from prev rest).
Proof.
  revert prev. induction rest as [|cur rest IH]; intros prev Hs; simpl;
    [constructor|].
  apply StronglySorted_inv in Hs as [Hs Hall].
  constructor; [|by apply IH].
  apply Forall_cons in Hall as [Hlt _]. lia.
Qed.

(** The unit is positive: the positions are distinct and ascending. *)
Lemma min_delta_of_pos uniq : StronglySorted Z.lt uniq -> 0 < min_delta_of uniq.
Proof.
  pose proof Number_MAX_VALUE_large as Hmax. rewrite min_delta_of_loop.
  destruct uniq as [|first rest]; intros Hs; [lia|].
  destruct (min_delta_loop_spec first rest Number_MAX_VALUE)
    as (_ & _ & [->|Hin]); [lia|].
  apply differences_from_pos in Hs. rewrite Forall_forall in Hs.
  by apply Hs.
Qed.

(** ** The walk building an axis *)

(** The [while] loop ends before its fuel does. *)
Lemma gap_loop_enough fuel xs num_steps :
  (Z.to_nat (num_steps - 1) <= fuel)%nat ->
  gap_loop fuel xs num_steps
  = xs ++ replicate (Z.to_nat (num_steps - 1)) gap.
Proof.
  revert xs num_steps.
  induction fuel as [|fuel IH]; intros xs num_steps Hfuel; simpl.
  - replace (Z.to_nat (num_steps - 1)) with 0%nat by lia.
    by rewrite app_nil_r.
  - destruct (1 <? num_steps) eqn:E.
    + apply Z.ltb_lt in E. rewrite IH by lia.
      replace (Z.to_nat (num_steps - 1))
        with (S (Z.to_nat (num_steps - 1 - 1))) by lia.
      simpl. by rewrite <- app_assoc.
    + apply Z.ltb_ge in E.
      replace (Z.to_nat (num_steps - 1)) with 0%nat by lia.
      by rewrite app_nil_r.
Qed.

Lemma push_gaps_replicate xs num_steps :
  push_gaps xs num_steps = xs ++ replicate (Z.to_nat (num_steps - 1)) gap.
Proof. unfold push_gaps. apply gap_loop_enough. lia. Qed.

Lemma axis_loop_tail min_delta prev rest xs :
  axis_loop min_delta prev rest xs = xs ++ axis_tail min_delta prev rest.
Proof.
  revert prev xs. induction rest as [|cur rest IH]; intros prev xs; simpl.
  - by rewrite app_nil_r.
  - rewrite IH, push_gaps_replicate. unfold steps_between.
    by rewrite <- !app_assoc.
Qed.

Lemma build_axis_cons min_delta first rest :
  build_axis min_delta (first :: rest)
  = Some first :: axis_tail min_delta first rest.
Proof. by rewrite build_axis_loop, axis_loop_tail. Qed.

Lemma axis_tail_split min_delta prev rest k p :
  rest !! k = Some p ->
  exists pre,
    axis_tail min_delta prev (take (S k) rest) = pre ++ [Some p] /\
    axis_tail min_delta prev rest
    = pre ++ [Some p] ++ axis_tail min_delta p (drop (S k) rest) /\
    forall s, s ∈ pre -> s = gap \/ exists c, s = Some c /\ c ∈ take k rest.
Proof.
  revert prev k. induction rest as [|cur rest IH]; intros prev k Hk;
    [done|].
  destruct k as [|k]; simpl in Hk.
  - injection Hk as ->.
    exists (replicate (Z.to_nat (steps_between min_delta prev p - 1)) gap).
    simpl. split; [done|]. split; [done|].
    intros s Hs. left. by apply elem_of_replicate in Hs as [-> _].
  - destruct (IH cur k Hk) as (pre & Htake & Hall & Hpre).
    exists (replicate (Z.to_nat (steps_between min_delta prev cur - 1)) gap
            ++ Some cur :: pre).
    change (take (S (S k)) (cur :: rest)) with (cur :: take (S k) rest).
    change (drop (S (S k)) (cur :: rest)) with (drop (S k) rest).
    simpl axis_tail. rewrite Htake, Hall.
    split; [by rewrite <- app_assoc|]. split; [by rewrite <- !app_assoc|].
    intros s [Hs|Hs]%elem_of_app.
    + left. by apply elem_of_replicate in Hs as [-> _].
    + apply elem_of_cons in Hs as [->|Hs].
      * right. exists cur. split; [done|]. simpl. by left.
      * destruct (Hpre s Hs) as [?|(c & -> & Hc)]; [by left|].
        right. exists c. split; [done|]. simpl. by right.
Qed.

(** The walk up to the [k]-th position is the beginning of the whole walk,
    and ends in that position. *)
Lemma build_axis_split min_delta uniq k p :
  uniq !! k = Some p ->
  exists pre,
    build_axis min_delta (take (S k) uniq) = pre ++ [Some p] /\
    build_axis min_delta uniq
    = pre ++ [Some p] ++ axis_tail min_delta p (drop (S k) uniq) /\
    forall s, s ∈ pre -> s = gap \/ exists c, s = Some c /\ c ∈ take k uniq.
Proof.
  destruct uniq as [|first rest]; [done|]. destruct k as [|k]; intros Hk;
    simpl in Hk.
  - injection Hk as ->. exists [].
    change (take 1 (p :: rest)) with [p].
    change (drop 1 (p :: rest)) with rest.
    rewrite !build_axis_cons. simpl. split; [done|]. split; [done|].
    by intros s ?%elem_of_nil.
  - destruct (axis_tail_split min_delta first rest k p Hk)
      as (pre & Htake & Hall & Hpre).
    exists (Some first :: pre).
    change (take (S (S k)) (first :: rest)) with (first :: take (S k) rest).
    change (drop (S (S k)) (first :: rest)) with (drop (S k) rest).
    change (take (S k) (first :: rest)) with (first :: take k rest).
    rewrite !build_axis_cons, Htake, Hall.
    split; [done|]. split; [done|].
    intros s [->|Hs]%elem_of_cons.
    + right. exists first. split; [done|]. by left.
    + destruct (Hpre s Hs) as [?|(c & -> & Hc)]; [by left|].
      right. exists c. split; [done|]. by right.
Qed.

Lemma axis_tail_elem min_delta prev rest s :
  s ∈ axis_tail min_delta prev rest ->
  s = gap \/ exists c, s = Some c /\ c ∈ rest.
Proof.
  revert prev. induction rest as [|cur rest IH]; intros prev; simpl.
  - by intros ?%elem_of_nil.
  - intros [Hs|Hs]%elem_of_app.
    + left. by apply elem_of_replicate in Hs as [-> _].
    + apply elem_of_cons in Hs as [->|Hs].
      * right. exists cur. split; [done|]. by left.
      * destruct (IH cur Hs) as [?|(c & -> & Hc)]; [by left|].
        right. exists c. split; [done|]. by right.
Qed.

(** ** One axis, from its positions *)

Lemma axis_xs_of values : axis_xs values = axis_of (map val_x values).
Proof. unfold axis_xs, min_delta_x, axis_of. by rewrite uniq_x_of. Qed.

Lemma axis_ys_of values : axis_ys values = axis_of (map val_y values).
Proof. unfold axis_ys, min_delta_y, axis_of. by rewrite uniq_y_of. Qed.

Lemma unit_is_minimum positions :
  Forall pixel positions ->
  (2 <= length (uniq_of positions))%nat ->
  min_delta_of (uniq_of positions) ∈ consecutive_differences (uniq_of positions)
  /\ forall d, d ∈ consecutive_differences (uniq_of positions) ->
       min_delta_of (uniq_of positions) <= d.
Proof.
  intros Hpix Hlen. rewrite Forall_forall in Hpix.
  assert (forall p, p ∈ uniq_of positions -> pixel p) as Hu.
  { intros p Hp. by apply Hpix, uniq_of_elem. }
  rewrite min_delta_of_loop.
  destruct (uniq_of positions) as [|first [|second rest]];
    simpl in Hlen; [lia..|].
  unfold consecutive_differences.
  destruct (min_delta_loop_spec first (second :: rest) Number_MAX_VALUE)
    as (_ & Hall & Hin).
  split; [|done]. destruct Hin as [Heq|Hin]; [|done].
  assert (second - first ∈ differences_from first (second :: rest)) as Hd
    by (simpl; by left).
  pose proof (Hall _ Hd) as Hle.
  pose proof Number_MAX_VALUE_large as Hmax.
  assert (pixel first) as Hf by (apply Hu; by left).
  assert (pixel second) as Hs by (apply Hu; right; by left).
  unfold pixel in Hf, Hs.
  assert (2 ^ 31 < 2 ^ 53) by (apply Z.pow_lt_mono_r; lia).
  replace (min_delta_loop first (second :: rest) Number_MAX_VALUE)
    with (second - first) by lia.
  done.
Qed.

Lemma gap_slots_between min_delta uniq i p q k :
  0 < min_delta ->
  uniq !! i = Some p -> uniq !! S i = Some q ->
  q - p = k * min_delta ->
  exists pre post,
    build_axis min_delta (take (S i) uniq) = pre ++ [Some p] /\
    build_axis min_delta (take (S (S i)) uniq)
    = pre ++ [Some p] ++ replicate (Z.to_nat (k - 1)) gap ++ [Some q] /\
    build_axis min_delta uniq
    = pre ++ [Some p] ++ replicate (Z.to_nat (k - 1)) gap ++ [Some q] ++ post.
Proof.
  intros Hpos Hp Hq Hk.
  assert (steps_between min_delta p q = k) as Hsteps.
  { unfold steps_between. rewrite Hk. by apply Math_round_multiple. }
  destruct (build_axis_split min_delta uniq i p Hp) as (pre & Htake & Hall & _).
  exists pre, (axis_tail min_delta q (drop (S (S i)) uniq)).
  split; [done|]. split.
  - rewrite (take_S_r uniq (S i) q Hq).
    assert (length (take (S i) uniq) = S i) as Hlen.
    { apply length_take_le. apply lookup_lt_Some in Hp. lia. }
    assert ((take (S i) uniq ++ [q]) !! i = Some p) as Hp'.
    { rewrite lookup_app_l by lia. by rewrite lookup_take_lt by lia. }
    destruct (build_axis_split min_delta _ i p Hp')
      as (pre' & Htake' & Hall' & _).
    rewrite take_app_length' in Htake' by done.
    rewrite drop_app_length' in Hall' by done.
    rewrite Htake in Htake'. apply app_inj_tail in Htake' as [<- _].
    rewrite Hall'. simpl. by rewrite Hsteps.
  - rewrite Hall, (drop_S uniq q (S i) Hq). simpl. by rewrite Hsteps.
Qed.

Lemma uniq_uniq_of ax values :
  uniq ax values = uniq_of (map (position ax) values).
Proof. destruct ax; [apply uniq_x_of|apply uniq_y_of]. Qed.

Lemma min_delta_min_delta_of ax values :
  min_delta ax values = min_delta_of (uniq ax values).
Proof. by destruct ax. Qed.

Lemma axis_build_axis ax values :
  axis ax values = build_axis (min_delta ax values) (uniq ax values).
Proof. by destruct ax. Qed.

Lemma axis_axis_of ax values :
  axis ax values = axis_of (map (position ax) values).
Proof. destruct ax; [apply axis_xs_of|apply axis_ys_of]. Qed.

Lemma uniq_ascending ax values : StronglySorted Z.lt (uniq ax values).
Proof. rewrite uniq_uniq_of. apply uniq_of_ascending. Qed.

Lemma uniq_elem ax values p :
  p ∈ uniq ax values <-> exists v, v ∈ values /\ position ax v = p.
Proof.
  rewrite uniq_uniq_of, uniq_of_elem, list_elem_of_fmap.
  split; intros (v & H1 & H2); by exists v.
Qed.

Lemma min_delta_pos ax values : 0 < min_delta ax values.
Proof.
  rewrite min_delta_min_delta_of. apply min_delta_of_pos, uniq_ascending.
Qed.

(** A gap that is no multiple of the unit is rounded: 31 pixels at unit 20
    are 2 steps, 29 pixels are 1. *)
Example axis_of_rounds :
  axis_of [0; 20; 51] = [Some 0; Some 20; gap; Some 51] /\
  axis_of [0; 20; 49] = [Some 0; Some 20; Some 49] /\
  axis_of [60; 0; 20; 0] = [Some 0; Some 20; gap; Some 60].
Proof. repeat split. Qed.

(** C2. On an axis with at least two distinct positions (pixel coordinates),
    the unit is the least of the differences of consecutive sorted distinct
    positions; and where two consecutive positions [p], [q] are [k] units
    apart, [k >= 1], the walk, which has just placed [p], appends exactly
    [k - 1] gap slots and then [q].  The sorted distinct positions are those
    of the values, strictly ascending. *)
Theorem unit_and_gap_slots (ax : Axis) (values : list Value) :
  Forall (fun v => pixel (position ax v)) values ->
  (2 <= length (uniq ax values))%nat ->
  (StronglySorted Z.lt (uniq ax values) /\
   forall p, p ∈ uniq ax values <-> exists v, v ∈ values /\ position ax v = p)
  /\
  (min_delta ax values ∈ consecutive_differences (uniq ax values) /\
   forall d, d ∈ consecutive_differences (uniq ax values) ->
     min_delta ax values <= d) /\
  forall (i : nat) (p q k : Z),
    uniq ax values !! i = Some p -> uniq ax values !! S i = Some q ->
    1 <= k -> q - p = k * min_delta ax values ->
    exists pre post,
      build_axis (min_delta ax values) (take (S i) (uniq ax values))
      = pre ++ [Some p] /\
      build_axis (min_delta ax values) (take (S (S i)) (uniq ax values))
      = pre ++ [Some p] ++ replicate (Z.to_nat (k - 1)) gap ++ [Some q] /\
      axis ax values
      = pre ++ [Some p] ++ replicate (Z.to_nat (k - 1)) gap ++ [Some q]
        ++ post.
Proof.
  intros Hpix Hlen. split; [|split].
  - split; [apply uniq_ascending|apply uniq_elem].
  - rewrite min_delta_min_delta_of, uniq_uniq_of in *.
    apply unit_is_minimum; [|done]. by apply Forall_fmap.
  - intros i p q k Hp Hq _ Hk. rewrite axis_build_axis.
    apply gap_slots_between; [apply min_delta_pos|done..].
Qed.

Lemma unit_and_gap_slots_witness :
  min_delta X_axis example_values = 20 /\
  exists pre post,
    axis X_axis example_values
    = pre ++ [Some 20] ++ replicate (Z.to_nat (2 - 1)) gap ++ [Some 60] ++ post.
Proof.
  destruct (unit_and_gap_slots X_axis example_values) as (_ & _ & Hgaps).
  - repeat constructor; simpl; unfold pixel; lia.
  - vm_compute. lia.
  - split; [reflexivity|].
    destruct (Hgaps 1%nat 20 60 2) as (pre & post & _ & _ & Haxis);
      [reflexivity..|lia|reflexivity|].
    by exists pre, post.
Defined.

(** C6. The axis built from a sequence of values depends only on the set of
    positions that occur in it: two sequences with the same set of positions on
    an axis, in any order and with any repetitions, give the same sorted
    distinct positions, the same unit and the same axis. *)
Theorem axis_depends_on_position_set (ax : Axis) (values1 values2 : list Value) :
  (forall p, p ∈ map (position ax) values1 <-> p ∈ map (position ax) values2) ->
  uniq ax values1 = uniq ax values2 /\
  min_delta ax values1 = min_delta ax values2 /\
  axis ax values1 = axis ax values2.
Proof.
  intros Hset.
  assert (uniq ax values1 = uniq ax values2) as Hu.
  { rewrite !uniq_uniq_of. by apply uniq_of_same_set. }
  split; [done|].
  rewrite !axis_build_axis, !min_delta_min_delta_of, Hu. done.
Qed.

Lemma axis_depends_on_position_set_witness :
  axis X_axis example_values
  = axis X_axis
      [ mkValue 60 0 "2"; mkValue 0 20 "4"; mkValue 20 0 "1"; mkValue 0 0 "3";
        mkValue 60 20 "5" ].
Proof.
  apply (axis_depends_on_position_set X_axis example_values
           [ mkValue 60 0 "2"; mkValue 0 20 "4"; mkValue 20 0 "1";
             mkValue 0 0 "3"; mkValue 60 20 "5" ]).
  intros p. simpl. rewrite !elem_of_cons, !elem_of_nil. tauto.
Defined.

(** ** Looking a position up in its axis *)

Lemma indexOf_middle {A : Type} `{EqDecision A} (pre post : list A) (a : A) :
  a ∉ pre -> indexOf (pre ++ [a] ++ post) a = Z.of_nat (length pre).
Proof.
  intros Hnot.
  assert (a ∈ pre ++ [a] ++ post) as Hin.
  { rewrite !elem_of_app, list_elem_of_singleton. tauto. }
  destruct (indexOf_elem _ _ Hin) as (n & -> & Hn & Hfirst).
  f_equal. destruct (Nat.lt_trichotomy n (length pre)) as [Hlt|[Heq|Hgt]].
  - rewrite lookup_app_l in Hn by done.
    apply list_elem_of_lookup_2 in Hn. done.
  - done.
  - exfalso. apply (Hfirst (length pre) Hgt).
    by apply list_lookup_middle.
Qed.

Lemma real_slot_of_position min_delta uniq k p :
  NoDup uniq -> 0 <= p -> uniq !! k = Some p ->
  exists pre post,
    build_axis min_delta (take (S k) uniq) = pre ++ [Some p] /\
    build_axis min_delta uniq = pre ++ [Some p] ++ post /\
    (Some p ∉ pre) /\ (Some p ∉ post) /\
    indexOf (build_axis min_delta uniq) (Some p) = Z.of_nat (length pre).
Proof.
  intros Hnd Hp Hk.
  destruct (build_axis_split min_delta uniq k p Hk)
    as (pre & Htake & Hall & Hpre).
  exists pre, (axis_tail min_delta p (drop (S k) uniq)).
  assert (Some p ∉ pre) as Hnot_pre.
  { intros Hin. destruct (Hpre _ Hin) as [Hgap|(c & [= <-] & Hc)].
    - unfold gap in Hgap. injection Hgap as ->. lia.
    - apply elem_of_take_lookup in Hc as (j & Hlt & Hj).
      pose proof (NoDup_lookup _ _ _ _ Hnd Hj Hk). lia. }
  assert (Some p ∉ axis_tail min_delta p (drop (S k) uniq)) as Hnot_post.
  { intros Hin. destruct (axis_tail_elem _ _ _ _ Hin) as [Hgap|(c & [= <-] & Hc)].
    - unfold gap in Hgap. injection Hgap as ->. lia.
    - apply list_elem_of_lookup in Hc as (j & Hj).
      rewrite lookup_drop in Hj.
      pose proof (NoDup_lookup _ _ _ _ Hnd Hj Hk). lia. }
  split; [done|]. split; [done|]. split; [done|]. split; [done|].
  rewrite Hall. by apply indexOf_middle.
Qed.

(** C10. When no position is negative, looking the position of a value up in
    its axis never fails: [indexOf] returns the index of the slot at which the
    walk appended that position, a slot inside the axis that is no gap slot,
    and the position occurs nowhere else in the axis; a gap slot holds [-1],
    which is no position. *)
Theorem lookup_finds_real_slot (ax : Axis) (values : list Value) :
  (forall v, v ∈ values -> 0 <= position ax v) ->
  forall v, v ∈ values ->
    let p := position ax v in
    let index := indexOf (axis ax values) (Some p) in
    index <> -1 /\
    0 <= index < Z.of_nat (length (axis ax values)) /\
    axis ax values !! Z.to_nat index = Some (Some p) /\
    Some p <> gap /\
    exists (k : nat) (pre post : list Slot),
      uniq ax values !! k = Some p /\
      build_axis (min_delta ax values) (take (S k) (uniq ax values))
      = pre ++ [Some p] /\
      axis ax values = pre ++ [Some p] ++ post /\
      index = Z.of_nat (length pre) /\
      (Some p ∉ pre) /\ (Some p ∉ post).
Proof.
  intros Hnonneg v Hv p index.
  assert (0 <= p) as Hp by (by apply Hnonneg).
  assert (p ∈ uniq ax values) as Hin by (apply uniq_elem; by exists v).
  apply list_elem_of_lookup in Hin as (k & Hk).
  assert (NoDup (uniq ax values)) as Hnd.
  { rewrite uniq_uniq_of. apply uniq_of_NoDup. }
  destruct (real_slot_of_position (min_delta ax values) _ k p Hnd Hp Hk)
    as (pre & post & Htake & Hall & Hpre & Hpost & Hindex).
  rewrite <- axis_build_axis in Hall, Hindex. fold index in Hindex.
  assert (length (axis ax values) = (length pre + S (length post))%nat) as Hlen.
  { rewrite Hall, !length_app. simpl. lia. }
  split; [lia|]. split; [lia|]. split.
  - rewrite Hindex, Nat2Z.id, Hall. by apply list_lookup_middle.
  - split; [unfold gap; intros [= ->]; lia|].
    by exists k, pre, post.
Qed.

Lemma lookup_finds_real_slot_witness :
  indexOf (axis X_axis example_values) (Some 60) <> -1 /\
  axis X_axis example_values
    !! Z.to_nat (indexOf (axis X_axis example_values) (Some 60))
  = Some (Some 60).
Proof.
  assert (forall v, v ∈ example_values -> 0 <= position X_axis v) as Hnonneg.
  { intros v Hv. apply list_elem_of_In in Hv. simpl in Hv.
    destruct Hv as [<-|[<-|[<-|[<-|[]]]]]; simpl; lia. }
  destruct (lookup_finds_real_slot X_axis example_values Hnonneg
              (mkValue 60 0 "2")) as (Hfound & _ & Hslot & _).
  - right. right. left.
  - split; [exact Hfound|exact Hslot].
Defined.

(** ** Assembling the grid *)

Lemma blank_grid_dims ys xs : dims (blank_grid ys xs) (length ys) (length xs).
Proof.
  unfold dims. rewrite blank_grid_replicate, length_replicate.
  split; [done|].
  apply Forall_replicate, length_replicate.
Qed.

Lemma blank_grid_cell ys xs i j s :
  cell (blank_grid ys xs) i j = Some s -> s = " "%string.
Proof.
  unfold cell. rewrite blank_grid_replicate.
  destruct (replicate _ _ !! i) as [row|] eqn:Hi; [|done].
  apply lookup_replicate in Hi as [-> _].
  by intros [-> _]%lookup_replicate.
Qed.

Lemma dims_cell arr rows cols i j :
  dims arr rows cols -> (i < rows)%nat -> (j < cols)%nat ->
  is_Some (cell arr i j).
Proof.
  intros [Hrows Hcols] Hi Hj. unfold cell.
  destruct (lookup_lt_is_Some_2 arr i) as [row Hrow]; [lia|].
  rewrite Hrow. apply lookup_lt_is_Some_2.
  rewrite Forall_forall in Hcols.
  rewrite (Hcols row); [done|]. by eapply list_elem_of_lookup_2.
Qed.

Lemma set_cell_in_range arr rows cols (y x : nat) v :
  dims arr rows cols -> (y < rows)%nat -> (x < cols)%nat ->
  exists arr',
    set_cell arr (Z.of_nat y) (Z.of_nat x) v = Some arr' /\
    dims arr' rows cols /\
    forall i j,
      cell arr' i j
      = if decide ((i, j) = (y, x)) then Some v else cell arr i j.
Proof.
  intros [Hrows Hcols] Hy Hx. unfold set_cell.
  destruct (lookup_lt_is_Some_2 arr y) as [row Hrow]; [lia|].
  assert (length row = cols) as Hlen.
  { rewrite Forall_forall in Hcols. apply Hcols.
    by eapply list_elem_of_lookup_2. }
  replace ((Z.of_nat y <? 0) || (Z.of_nat (length arr) <=? Z.of_nat y))
    with false by (symmetry; apply orb_false_iff; split; lia).
  rewrite Nat2Z.id, Hrow. eexists. split; [done|].
  assert (set_row row (Z.of_nat x) v = <[x := v]> row) as ->.
  { unfold set_row.
    replace (Z.of_nat x <? 0) with false by (symmetry; lia).
    replace (Z.of_nat x <? Z.of_nat (length row)) with true
      by (symmetry; lia).
    by rewrite Nat2Z.id. }
  split; [split|].
  - by rewrite length_insert.
  - apply Forall_insert; [done|]. by rewrite length_insert.
  - intros i j. unfold cell. destruct (decide (i = y)) as [->|Hne].
    + rewrite list_lookup_insert_eq by lia. rewrite Hrow.
      destruct (decide (j = x)) as [->|Hne].
      * rewrite decide_True by done. apply list_lookup_insert_eq. lia.
      * rewrite decide_False by congruence.
        by apply list_lookup_insert_ne.
    + rewrite decide_False by congruence.
      by rewrite list_lookup_insert_ne.
Qed.

Lemma place_values_spec xs ys values arr rows cols :
  dims arr rows cols ->
  (forall v, v ∈ values ->
     exists y x : nat,
       cell_of xs ys v = (Z.of_nat y, Z.of_nat x) /\
       (y < rows)%nat /\ (x < cols)%nat) ->
  exists g,
    place_values xs ys values arr = Some g /\
    dims g rows cols /\
    forall i j s, cell arr i j = Some s ->
      cell g i j = Some (written xs ys values i j s).
Proof.
  revert arr. induction values as [|v values IH]; intros arr Hdims Hin.
  - exists arr. by split; [|split].
  - destruct (Hin v) as (y & x & Hcell & Hy & Hx); [by left|].
    destruct (set_cell_in_range arr rows cols y x (val_v v) Hdims Hy Hx)
      as (arr' & Hset & Hdims' & Hcells).
    destruct (IH arr' Hdims') as (g & Hg & Hdg & Hcg).
    { intros w Hw. apply Hin. by right. }
    exists g. split; [|split; [done|]].
    + unfold place_values in *. simpl.
      unfold cell_of in Hcell. injection Hcell as -> ->. by rewrite Hset.
    + intros i j s Hs. unfold written. simpl. rewrite Hcell.
      fold (written xs ys values i j). apply Hcg. rewrite Hcells.
      destruct (decide ((i, j) = (y, x))) as [[= -> ->]|Hne].
      * by rewrite decide_True.
      * rewrite decide_False; [done|]. intros [= ?%Nat2Z.inj ?%Nat2Z.inj].
        congruence.
Qed.

Lemma build_axis_elem min_delta uniq p :
  p ∈ uniq -> Some p ∈ build_axis min_delta uniq.
Proof.
  intros (k & Hk)%list_elem_of_lookup.
  destruct (build_axis_split min_delta uniq k p Hk) as (pre & _ & -> & _).
  rewrite !elem_of_app, list_elem_of_singleton. tauto.
Qed.

Lemma axis_elem ax values v :
  v ∈ values -> Some (position ax v) ∈ axis ax values.
Proof.
  intros Hv. rewrite axis_build_axis. apply build_axis_elem, uniq_elem.
  by exists v.
Qed.

(** Both lookups of the last loop succeed, inside the grid. *)
Lemma cell_of_in_range values v :
  v ∈ values ->
  exists y x : nat,
    cell_of (axis_xs values) (axis_ys values) v = (Z.of_nat y, Z.of_nat x) /\
    (y < length (axis_ys values))%nat /\ (x < length (axis_xs values))%nat.
Proof.
  intros Hv.
  pose proof (indexOf_range _ _ (axis_elem X_axis values v Hv)) as Hx.
  pose proof (indexOf_range _ _ (axis_elem Y_axis values v Hv)) as Hy.
  simpl in Hx, Hy.
  exists (Z.to_nat (indexOf (axis_ys values) (Some (val_y v)))),
         (Z.to_nat (indexOf (axis_xs values) (Some (val_x v)))).
  unfold cell_of. rewrite !Z2Nat.id by lia. split; [done|]. lia.
Qed.

(** The last loop raises no exception: [arr] keeps its shape and each cell
    holds the blank or the string last written to it. *)
Lemma build_grid_spec values :
  exists g,
    build_grid values = Some g /\
    dims g (length (axis_ys values)) (length (axis_xs values)) /\
    forall i j,
      (i < length (axis_ys values))%nat -> (j < length (axis_xs values))%nat ->
      cell g i j
      = Some (written (axis_xs values) (axis_ys values) values i j " ").
Proof.
  destruct (place_values_spec (axis_xs values) (axis_ys values) values
              (blank_grid (axis_ys values) (axis_xs values))
              (length (axis_ys values)) (length (axis_xs values)))
    as (g & Hg & Hdims & Hcells).
  - apply blank_grid_dims.
  - intros v Hv. by apply cell_of_in_range.
  - exists g. split; [done|]. split; [done|]. intros i j Hi Hj.
    destruct (dims_cell _ _ _ i j (blank_grid_dims _ _) Hi Hj) as [s Hs].
    pose proof (blank_grid_cell _ _ _ _ _ Hs) as ->. by apply Hcells.
Qed.

Lemma written_blank xs ys values i j init :
  (forall v, v ∈ values -> cell_of xs ys v <> (Z.of_nat i, Z.of_nat j)) ->
  written xs ys values i j init = init.
Proof.
  revert init. induction values as [|v values IH]; intros init Hno; [done|].
  unfold written. simpl. rewrite decide_False by (apply Hno; by left).
  apply IH. intros w Hw. apply Hno. by right.
Qed.

Lemma written_app xs ys values1 values2 i j init :
  written xs ys (values1 ++ values2) i j init
  = written xs ys values2 i j (written xs ys values1 i j init).
Proof. unfold written. by rewrite fold_left_app. Qed.

Lemma written_last xs ys before v after i j init :
  cell_of xs ys v = (Z.of_nat i, Z.of_nat j) ->
  (forall w, w ∈ after -> cell_of xs ys w <> (Z.of_nat i, Z.of_nat j)) ->
  written xs ys (before ++ v :: after) i j init = val_v v.
Proof.
  intros Hv Hafter. rewrite written_app.
  change (v :: after) with ([v] ++ after). rewrite written_app.
  rewrite (written_blank _ _ after) by done.
  unfold written. simpl. by rewrite decide_True.
Qed.

Lemma written_inv (P : string -> Prop) xs ys values i j init :
  P init -> (forall v, v ∈ values -> P (val_v v)) ->
  P (written xs ys values i j init).
Proof.
  revert init. induction values as [|v values IH]; intros init Hinit Hall;
    [done|].
  unfold written. simpl. apply IH.
  - destruct (decide _); [apply Hall; by left|done].
  - intros w Hw. apply Hall. by right.
Qed.

(** ** Strings *)

Lemma string_length_append (s1 s2 : string) :
  String.length (s1 ++ s2) = (String.length s1 + String.length s2)%nat.
Proof. induction s1 as [|c s1 IH]; simpl; [done|]. by rewrite IH. Qed.

Lemma string_all_append P (s1 s2 : string) :
  string_all P (s1 ++ s2)%string <-> string_all P s1 /\ string_all P s2.
Proof.
  unfold string_all. induction s1 as [|c s1 IH]; simpl.
  - split; [intros H; split; [constructor|done]|tauto].
  - rewrite !Forall_cons, IH. tauto.
Qed.

Lemma string_all_join P sep (l : list string) :
  string_all P sep -> Forall (string_all P) l -> string_all P (join sep l).
Proof.
  intros Hsep Hl. unfold join. induction Hl as [|s l Hs Hl IH]; simpl.
  - constructor.
  - destruct l as [|s' l]; [done|].
    apply string_all_append. split; [done|].
    apply string_all_append. by split.
Qed.

Lemma length_join_cells (row : list string) :
  Forall (fun s => String.length s = 1%nat) row ->
  String.length (join ""%string row) = length row.
Proof.
  unfold join. induction 1 as [|s row Hs Hrow IH]; [done|].
  destruct row as [|s' row]; [simpl; by rewrite Hs|].
  change (String.concat "" (s :: s' :: row))
    with (s ++ String.concat "" (s' :: row))%string.
  by rewrite string_length_append, Hs, IH.
Qed.

(** ** The grid *)

(** Against C5 as the specification states it: with a value of two
    characters the serialized rows have different lengths. *)
Lemma serialized_rows_unequal :
  ~ (exists (g : Grid) (n : nat),
       build_grid two_digit_values = Some g /\
       Forall (fun row => String.length (join ""%string row) = n) g).
Proof.
  intros (g & n & Hg & Hall). vm_compute in Hg. injection Hg as <-.
  apply Forall_cons in Hall as [H1 Hall].
  apply Forall_cons in Hall as [H2 _].
  vm_compute in H1, H2. congruence.
Qed.

(** C5, amended.  The grid is always built; it has as many rows as the y axis
    has slots and every row has as many cells as the x axis has slots; a
    cell to which no value goes holds the blank; every value goes to one cell,
    inside the grid, at the indices of its positions in the two axes, and the
    cell holds its string unless a later value goes to the same cell; the text
    is the rows, each the concatenation of its cells, joined by newlines, and
    a serialized row has as many characters as the x axis has slots when every
    value is a single character. *)
Theorem grid_shape_and_cells (values : list Value) :
  exists g : Grid,
    build_grid values = Some g /\
    grid_text values = Some (join newline (map (join ""%string) g)) /\
    length g = length (axis_ys values) /\
    Forall (fun row => length row = length (axis_xs values)) g /\
    (forall i j,
       (i < length (axis_ys values))%nat -> (j < length (axis_xs values))%nat ->
       (forall v, v ∈ values ->
          cell_of (axis_xs values) (axis_ys values) v
          <> (Z.of_nat i, Z.of_nat j)) ->
       cell g i j = Some " "%string) /\
    (forall v, v ∈ values ->
       exists i j : nat,
         cell_of (axis_xs values) (axis_ys values) v
         = (Z.of_nat i, Z.of_nat j) /\
         (i < length (axis_ys values))%nat /\
         (j < length (axis_xs values))%nat) /\
    (forall before v after i j,
       values = before ++ v :: after ->
       cell_of (axis_xs values) (axis_ys values) v
       = (Z.of_nat i, Z.of_nat j) ->
       (forall w, w ∈ after ->
          cell_of (axis_xs values) (axis_ys values) w
          <> (Z.of_nat i, Z.of_nat j)) ->
       cell g i j = Some (val_v v)) /\
    (Forall (fun v => String.length (val_v v) = 1%nat) values ->
     Forall
       (fun row => String.length (join ""%string row)
                   = length (axis_xs values)) g).
Proof.
  destruct (build_grid_spec values) as (g & Hg & [Hrows Hcols] & Hcells).
  exists g. split; [done|]. split; [unfold grid_text; by rewrite Hg|].
  split; [done|]. split; [done|]. split; [|split; [|split]].
  - intros i j Hi Hj Hno. rewrite Hcells by done.
    by rewrite written_blank.
  - intros v Hv. by apply cell_of_in_range.
  - intros before v after i j Hvalues Hv Hafter.
    assert (v ∈ values) as Hin.
    { rewrite Hvalues, elem_of_app. right. by left. }
    destruct (cell_of_in_range values v Hin) as (y & x & Hyx & Hy & Hx).
    rewrite Hv in Hyx. injection Hyx as ->%Nat2Z.inj ->%Nat2Z.inj.
    rewrite Hcells by done.
    rewrite Hvalues at 3. by rewrite (written_last _ _ before v after).
  - intros Hsingle. rewrite Forall_forall in Hsingle.
    rewrite Forall_forall in Hcols. apply Forall_forall. intros row Hrow.
    rewrite <- (Hcols row Hrow). apply length_join_cells.
    apply list_elem_of_lookup in Hrow as (i & Hi).
    apply Forall_forall. intros s (j & Hj)%list_elem_of_lookup.
    assert ((i < length (axis_ys values))%nat) as Hilt.
    { apply lookup_lt_Some in Hi. lia. }
    assert ((j < length (axis_xs values))%nat) as Hjlt.
    { apply lookup_lt_Some in Hj.
      rewrite (Hcols row) in Hj; [done|]. by eapply list_elem_of_lookup_2. }
    pose proof (Hcells i j Hilt Hjlt) as Hc.
    unfold cell in Hc. rewrite Hi, Hj in Hc. injection Hc as ->.
    by apply written_inv.
Qed.

Lemma grid_shape_and_cells_witness :
  exists g : Grid,
    build_grid example_values = Some g /\
    Forall (fun row => String.length (join ""%string row) = 4%nat) g.
Proof.
  destruct (grid_shape_and_cells example_values)
    as (g & Hg & _ & _ & _ & _ & _ & _ & Hserial).
  exists g. split; [exact Hg|].
  apply Hserial. repeat constructor.
Defined.

(** ** Degenerate inputs *)

Lemma uniq_short ax values :
  (forall v w, v ∈ values -> w ∈ values -> position ax v = position ax w) ->
  (length (uniq ax values) < 2)%nat.
Proof.
  intros Hsame.
  assert (NoDup (uniq ax values)) as Hnd.
  { rewrite uniq_uniq_of. apply uniq_of_NoDup. }
  assert (forall p q, p ∈ uniq ax values -> q ∈ uniq ax values -> p = q)
    as Hone.
  { intros p q (v & Hv & <-)%uniq_elem (w & Hw & <-)%uniq_elem.
    by apply Hsame. }
  destruct (uniq ax values) as [|p [|q rest]]; simpl; [lia..|].
  exfalso. apply NoDup_cons in Hnd as [Hnot _]. apply Hnot.
  rewrite (Hone p q); [by left|by left|right; by left].
Qed.

Lemma build_axis_short min_delta uniq :
  (length uniq < 2)%nat -> length (build_axis min_delta uniq) = 1%nat.
Proof.
  rewrite build_axis_loop. destruct uniq as [|p [|q rest]]; simpl; [done..|lia].
Qed.

(** C9. When the values have fewer than two distinct positions on an axis
    (none, or all the same), that axis has exactly one slot, the grid is built
    without an exception and has a single column (x axis) or a single row
    (y axis), and the text is produced. *)
Theorem degenerate_axis (ax : Axis) (values : list Value) :
  (forall v w, v ∈ values -> w ∈ values -> position ax v = position ax w) ->
  (length (uniq ax values) < 2)%nat /\
  length (axis ax values) = 1%nat /\
  exists g : Grid,
    build_grid values = Some g /\
    grid_text values = Some (serialize g) /\
    match ax with
    | X_axis => Forall (fun row => length row = 1%nat) g
    | Y_axis => length g = 1%nat
    end.
Proof.
  intros Hsame. pose proof (uniq_short ax values Hsame) as Hshort.
  assert (length (axis ax values) = 1%nat) as Hone.
  { rewrite axis_build_axis. by apply build_axis_short. }
  split; [done|]. split; [done|].
  destruct (build_grid_spec values) as (g & Hg & [Hrows Hcols] & _).
  exists g. split; [done|]. split; [unfold grid_text; by rewrite Hg|].
  destruct ax; simpl in Hone; by rewrite <- Hone.
Qed.

Lemma degenerate_axis_witness :
  length (axis X_axis [ mkValue 5 0 "1"; mkValue 5 20 "2" ]) = 1%nat /\
  length (axis Y_axis []) = 1%nat.
Proof.
  split.
  - apply (degenerate_axis X_axis [ mkValue 5 0 "1"; mkValue 5 20 "2" ]).
    intros v w Hv Hw. apply list_elem_of_In in Hv, Hw. simpl in Hv, Hw.
    destruct Hv as [<-|[<-|[]]], Hw as [<-|[<-|[]]]; reflexivity.
  - apply (degenerate_axis Y_axis []).
    intros v w Hv. by apply elem_of_nil in Hv.
Defined.

(** Against C8 as the specification states it: with no rectangle, so no
    value, the run raises no exception and produces a text. *)
Lemma empty_detection_no_error :
  ~ (processImage_text (fun _ => ""%string) [] = None).
Proof. vm_compute. discriminate. Qed.

(** C8, amended.  With no contour the first loop paints nothing; with no
    rectangle there is no value, and the run completes without an exception:
    both axes are the single slot [undefined], the grid is one blank cell and
    the text is one blank. *)
Theorem empty_detection_blank_grid
  (rows cols : Z) (recognize : Rectangle -> string) :
  draw_candidates rows cols [] = [] /\
  extract_values recognize [] = [] /\
  axis_xs [] = [None] /\ axis_ys [] = [None] /\
  build_grid [] = Some [[" "%string]] /\
  processImage_text recognize [] = Some " "%string.
Proof. repeat split. Qed.

(** ** The example of the specification *)

(** Against C1 as the specification states it: the first row of the text
    is not [3 1 2]. *)
Lemma example_first_row_differs :
  ~ (min_delta_x example_values = 20 /\
     length (axis_xs example_values) = 4%nat /\
     exists rest : string,
       grid_text example_values
       = Some ("3 1 2" ++ newline ++ rest)%string).
Proof.
  intros (_ & _ & rest & H). vm_compute in H. discriminate H.
Qed.

(** C1, amended.  For the example the unit on x is 20, one gap column is
    inserted between 20 and 60, so the x axis has 4 slots (for 0, 20, the gap
    and 60) and the y axis 2; the text is the row [31 2], a newline and the row
    [4] followed by three blanks: each row has exactly 4 characters, one per
    column, with no separator between cells. *)
Theorem example_grid_text :
  min_delta_x example_values = 20 /\
  axis_xs example_values = [Some 0; Some 20; gap; Some 60] /\
  length (axis_xs example_values) = 4%nat /\
  axis_ys example_values = [Some 0; Some 20] /\
  build_grid example_values
  = Some [ ["3"; "1"; " "; "2"]; ["4"; " "; " "; " "] ]%string /\
  grid_text example_values = Some ("31 2" ++ newline ++ "4   ")%string /\
  String.length "31 2" = 4%nat /\ String.length "4   " = 4%nat.
Proof. repeat split. Qed.

(** ** Value extraction *)

Lemma is_digit_decimal c : is_digit c = true <-> decimal_digit c.
Proof.
  unfold decimal_digit.
  destruct c as [[] [] [] [] [] [] [] []]; vm_compute;
    (split; [intros H; first [discriminate H | tauto]
            |intros H; repeat destruct H as [H|H];
             first [discriminate H | reflexivity | contradiction]]).
Qed.

Lemma digit_run_spec s :
  exists post,
    s = (digit_run s ++ post)%string /\
    string_all decimal_digit (digit_run s) /\
    starts_with_digit post = false.
Proof.
  induction s as [|c s (post & Hs & Hall & Hpost)]; simpl.
  - exists ""%string. split; [done|]. split; [constructor|done].
  - destruct (is_digit c) eqn:E.
    + exists post. split; [|split; [|done]].
      * change (String c s = String c (digit_run s ++ post)%string).
        by f_equal.
      * constructor; [by apply is_digit_decimal|done].
    + exists (String c s). split; [done|]. split; [constructor|done].
Qed.

Lemma match_digits_None text :
  match_digits text = None ->
  string_all (fun c => ~ decimal_digit c) text.
Proof.
  induction text as [|c text IH]; simpl; [constructor|].
  destruct (is_digit c) eqn:E; [done|]. intros H.
  constructor; [|by apply IH].
  rewrite <- is_digit_decimal. congruence.
Qed.

Lemma match_digits_Some text m :
  match_digits text = Some m ->
  exists pre post,
    text = (pre ++ m ++ post)%string /\
    string_all (fun c => ~ decimal_digit c) pre /\
    m <> ""%string /\
    string_all decimal_digit m /\
    starts_with_digit post = false.
Proof.
  induction text as [|c text IH]; simpl; [done|].
  destruct (is_digit c) eqn:E.
  - intros [= <-]. destruct (digit_run_spec text) as (post & Hs & Hall & Hpost).
    exists ""%string, post. split.
    { change (String c text = String c (digit_run text ++ post)%string).
      by f_equal. }
    split; [constructor|]. split; [done|]. split; [|done].
    constructor; [by apply is_digit_decimal|done].
  - intros H. destruct (IH H) as (pre & post & -> & Hpre & Hm & Hall & Hpost).
    exists (String c pre), post. split; [done|]. split; [|done].
    constructor; [|done]. rewrite <- is_digit_decimal. congruence.
Qed.

Example value_of_text_runs :
  value_of_text "ab 10 cd 7" = "10"%string /\
  value_of_text "8" = "8"%string /\
  value_of_text "no digit" = "?"%string /\
  value_of_text "" = "?"%string.
Proof. repeat split. Qed.

Lemma value_of_text_chars text :
  string_all (fun c => decimal_digit c \/ c = "?"%char) (value_of_text text).
Proof.
  unfold value_of_text. destruct (match_digits text) as [m|] eqn:E.
  - apply match_digits_Some in E as (_ & _ & _ & _ & _ & Hall & _).
    unfold string_all in *. eapply Forall_impl; [done|]. tauto.
  - unfold string_all. simpl. constructor; [by right|constructor].
Qed.

Lemma extract_values_elem recognize rectangles v :
  v ∈ extract_values recognize rectangles ->
  exists rect, rect ∈ rectangles /\ v = value_of_rect recognize rect.
Proof.
  rewrite extract_values_loop, values_loop_kept. simpl.
  intros (i & _ & Hi)%list_elem_of_omap.
  destruct (rectangles !! i) as [rect|] eqn:E; [|done].
  injection Hi as <-. exists rect. split; [|done].
  by eapply list_elem_of_lookup_2.
Qed.

Lemma grid_text_chars (P : ascii -> Prop) values :
  P " "%char -> P (ascii_of_nat 10) ->
  (forall v, v ∈ values -> string_all P (val_v v)) ->
  exists text, grid_text values = Some text /\ string_all P text.
Proof.
  intros Hblank Hnl Hvalues.
  destruct (build_grid_spec values) as (g & Hg & [Hrows Hcols] & Hcells).
  exists (serialize g). split; [unfold grid_text; by rewrite Hg|].
  rewrite Forall_forall in Hcols.
  apply string_all_join; [by repeat constructor|].
  apply Forall_fmap, Forall_forall. intros row Hrow.
  apply string_all_join; [constructor|].
  apply list_elem_of_lookup in Hrow as (i & Hi).
  apply Forall_forall. intros s (j & Hj)%list_elem_of_lookup.
  assert ((i < length (axis_ys values))%nat) as Hilt.
  { apply lookup_lt_Some in Hi. lia. }
  assert ((j < length (axis_xs values))%nat) as Hjlt.
  { apply lookup_lt_Some in Hj.
    rewrite (Hcols row) in Hj; [done|]. by eapply list_elem_of_lookup_2. }
  pose proof (Hcells i j Hilt Hjlt) as Hc.
  unfold cell in Hc. rewrite Hi, Hj in Hc. injection Hc as ->.
  apply written_inv; [by repeat constructor|done].
Qed.

(** Against C4 as the specification states it: for the OCR text [10] the
    value is the two characters [10], and the text of the grid holds a [0]. *)
Lemma value_not_single_digit :
  ~ (String.length (value_of_text "10") = 1%nat \/
     exists text,
       processImage_text (fun _ => "10"%string) [mkRect 0 0 20 20] = Some text
       /\ string_all spec_char text).
Proof.
  intros [H|(text & Htext & Hall)].
  - vm_compute in H. discriminate H.
  - vm_compute in Htext. injection Htext as <-.
    unfold string_all in Hall. simpl in Hall.
    apply Forall_cons in Hall as [_ Hall].
    apply Forall_cons in Hall as [H0 _].
    unfold spec_char in H0. simpl in H0.
    repeat destruct H0 as [H0|H0]; first [discriminate H0 | contradiction].
Qed.

(** C4, amended.  For every kept rectangle the value is the first maximal
    run of decimal digits of the OCR text, one or more characters long and
    taken as it is, or [?] when the text has no digit; no reduction to a
    single character takes place.  Every character of the text of the grid
    is a decimal digit ([0] included), [?], the blank, or the newline that
    joins the rows. *)
Theorem value_extractor_digit_run
  (recognize : Rectangle -> string) (rectangles : list Rectangle) :
  (forall text,
     (match_digits text = None /\ value_of_text text = "?"%string /\
      string_all (fun c => ~ decimal_digit c) text) \/
     (exists pre m post,
        text = (pre ++ m ++ post)%string /\
        string_all (fun c => ~ decimal_digit c) pre /\
        m <> ""%string /\ string_all decimal_digit m /\
        starts_with_digit post = false /\
        value_of_text text = m)) /\
  (forall v, v ∈ extract_values recognize rectangles ->
     exists rect, rect ∈ rectangles /\
       val_x v = rect_x rect /\ val_y v = rect_y rect /\
       val_v v = value_of_text (recognize rect)) /\
  exists text,
    processImage_text recognize rectangles = Some text /\
    string_all text_char text.
Proof.
  split; [|split].
  - intros text. unfold value_of_text.
    destruct (match_digits text) as [m|] eqn:E.
    + right. apply match_digits_Some in E
        as (pre & post & Ht & Hpre & Hm & Hall & Hpost).
      by exists pre, m, post.
    + left. split; [done|]. split; [done|]. by apply match_digits_None.
  - intros v (rect & Hrect & ->)%extract_values_elem. by exists rect.
  - apply grid_text_chars.
    + unfold text_char. tauto.
    + unfold text_char. tauto.
    + intros v (rect & _ & ->)%extract_values_elem. simpl.
      pose proof (value_of_text_chars (recognize rect)) as H.
      unfold string_all in *. eapply Forall_impl; [done|].
      unfold text_char. tauto.
Qed.

(** * Further properties *)

(** ** The markers of the first loop *)



(** X2. The test [area > 100] of the filter never decides: a rectangle is a
    candidate exactly when its width and its height exceed 10 and ten times
    its area is below the area of the image. *)
Theorem area_test_redundant (rows cols : Z) (rect : Rectangle) :
  is_candidate rows cols rect
  = (10 <? rect_width rect) && (10 <? rect_height rect) &&
    (10 * (rect_width rect * rect_height rect) <? rows * cols).
Proof.
  apply eq_true_iff_eq.
  rewrite is_candidate_plausible, !andb_true_iff, !Z.ltb_lt.
  unfold plausible. rewrite Qlt_tenth. split; [tauto|].
  intros [[Hw Hh] Ha]. repeat split; [done..| |done]. nia.
Qed.

(** X3. In an image of at most 1210 pixels the first loop paints nothing,
    whatever contours were found: a candidate has an area of at least 121,
    which must stay below a tenth of the image. *)
Theorem small_image_no_candidates (rows cols : Z) (contours : list Rectangle) :
  rows * cols <= 1210 -> draw_candidates rows cols contours = [].
Proof.
  intros Hsmall. unfold draw_candidates. rewrite draw_candidates_from. simpl.
  induction contours as [|rect contours IH]; [done|].
  rewrite filter_cons, decide_False; [done|].
  intros (Hw & Hh & _ & Ha). apply Qlt_tenth in Ha. nia.
Qed.

Lemma small_image_no_candidates_witness :
  draw_candidates 40 30 [mkRect 0 0 11 11; mkRect 3 3 20 20] = [].
Proof. apply small_image_no_candidates. lia. Defined.

(** ** The kept rectangles *)

Lemma values_loop_kept_rects recognize earlier rest values :
  values_loop recognize earlier rest values
  = values ++ (value_of_rect recognize <$> kept_rects earlier rest).
Proof.
  revert earlier values.
  induction rest as [|rect rest IH]; intros earlier values; simpl.
  - by rewrite app_nil_r.
  - rewrite IH. destruct (skip_loop rect earlier); simpl; [done|].
    by rewrite <- app_assoc.
Qed.

Lemma extract_values_kept_rects recognize rectangles :
  extract_values recognize rectangles
  = value_of_rect recognize <$> kept_rects [] rectangles.
Proof. by rewrite extract_values_loop, values_loop_kept_rects. Qed.

Lemma kept_rects_sublist earlier rest :
  kept_rects earlier rest `sublist_of` rest.
Proof.
  revert earlier. induction rest as [|rect rest IH]; intros earlier; simpl;
    [done|].
  destruct (skip_loop rect earlier); simpl.
  - by apply sublist_cons.
  - by apply sublist_skip.
Qed.

Lemma kept_rects_clear earlier rest rect rect2 :
  rect ∈ kept_rects earlier rest -> rect2 ∈ earlier ->
  overlap rect rect2 = false.
Proof.
  revert earlier. induction rest as [|r rest IH]; intros earlier; simpl.
  - by intros ?%elem_of_nil.
  - intros [Hin|Hin]%elem_of_app Hearlier.
    + destruct (skip_loop r earlier) eqn:E; [by apply elem_of_nil in Hin|].
      apply list_elem_of_singleton in Hin as ->.
      by apply (proj1 (skip_loop_false r earlier)).
    + apply (IH (earlier ++ [r])); [done|].
      apply elem_of_app. by left.
Qed.

(** No kept rectangle overlaps a kept rectangle before it. *)
Lemma kept_rects_pairs earlier rest :
  ForallOrdPairs (fun r1 r2 => overlap r2 r1 = false) (kept_rects earlier rest).
Proof.
  revert earlier. induction rest as [|r rest IH]; intros earlier; simpl.
  - constructor.
  - destruct (skip_loop r earlier); simpl; [apply IH|].
    constructor; [|apply IH].
    apply List.Forall_forall. intros r2 Hr2%list_elem_of_In.
    apply (kept_rects_clear (earlier ++ [r]) rest); [done|].
    apply elem_of_app. right. by left.
Qed.

(** X4. The loop over [rectangles] yields at most one value per rectangle,
    in the order of the rectangles; the first rectangle is always kept, so
    there is no value exactly when there is no rectangle. *)
Theorem first_rectangle_kept
  (recognize : Rectangle -> string) (rectangles : list Rectangle) :
  (exists kept,
     kept `sublist_of` rectangles /\
     extract_values recognize rectangles = value_of_rect recognize <$> kept) /\
  (length (extract_values recognize rectangles) <= length rectangles)%nat /\
  head (extract_values recognize rectangles)
  = value_of_rect recognize <$> head rectangles /\
  (extract_values recognize rectangles = [] <-> rectangles = []).
Proof.
  rewrite extract_values_kept_rects.
  assert (head (value_of_rect recognize <$> kept_rects [] rectangles)
          = value_of_rect recognize <$> head rectangles) as Hhead.
  { by destruct rectangles. }
  split; [|split; [|split; [done|]]].
  - exists (kept_rects [] rectangles). split; [apply kept_rects_sublist|done].
  - rewrite length_fmap. apply sublist_length, kept_rects_sublist.
  - split; [|by intros ->].
    intros Hnil. rewrite Hnil in Hhead. by destruct rectangles.
Qed.

(** ** Every kept value reaches the grid *)

Lemma same_origin_overlap r1 r2 :
  well_formed r1 -> well_formed r2 ->
  rect_x r1 = rect_x r2 -> rect_y r1 = rect_y r2 -> overlap r2 r1 = true.
Proof.
  intros [Hw1 Hh1] [Hw2 Hh2] Hx Hy. unfold overlap.
  rewrite negb_true_iff, !orb_false_iff, !Z.ltb_ge. lia.
Qed.

Lemma kept_origins_NoDup recognize rectangles :
  Forall well_formed rectangles ->
  NoDup (origin <$> extract_values recognize rectangles).
Proof.
  intros Hwf. rewrite extract_values_kept_rects.
  assert (Forall well_formed (kept_rects [] rectangles)) as Hkept.
  { rewrite Forall_forall in Hwf. apply Forall_forall. intros r Hr.
    apply Hwf. revert Hr.
    apply (sublist_subseteq _ _ (kept_rects_sublist [] rectangles)). }
  pose proof (kept_rects_pairs [] rectangles) as Hpairs.
  induction Hpairs as [|r kept Hr Hpairs IH]; [constructor|].
  apply Forall_cons in Hkept as [Hwr Hkept].
  rewrite !fmap_cons. apply NoDup_cons. split; [|by apply IH].
  intros (v & Hv & (r2 & -> & Hr2)%list_elem_of_fmap)%list_elem_of_fmap.
  rewrite List.Forall_forall in Hr.
  specialize (Hr r2 (proj1 (list_elem_of_In _ _) Hr2)).
  rewrite Forall_forall in Hkept.
  unfold origin in Hv. simpl in Hv. injection Hv as Hx Hy.
  rewrite (same_origin_overlap r r2) in Hr;
    [done|done|by apply Hkept|done..].
Qed.

Lemma indexOf_inj {A : Type} `{EqDecision A} (l : list A) (a b : A) :
  a ∈ l -> b ∈ l -> indexOf l a = indexOf l b -> a = b.
Proof.
  intros (n & Hn & Ha & _)%indexOf_elem (m & Hm & Hb & _)%indexOf_elem Heq.
  assert (n = m) as -> by lia. congruence.
Qed.

(** Values at different positions go to different cells. *)
Lemma cell_of_inj values v w :
  v ∈ values -> w ∈ values ->
  cell_of (axis_xs values) (axis_ys values) v
  = cell_of (axis_xs values) (axis_ys values) w ->
  origin v = origin w.
Proof.
  intros Hv Hw [= Hy Hx]. unfold origin.
  apply indexOf_inj in Hx;
    [|apply (axis_elem X_axis values v Hv)
     |apply (axis_elem X_axis values w Hw)].
  apply indexOf_inj in Hy;
    [|apply (axis_elem Y_axis values v Hv)
     |apply (axis_elem Y_axis values w Hw)].
  congruence.
Qed.

Lemma grid_holds_values values :
  NoDup (origin <$> values) ->
  exists g : Grid,
    build_grid values = Some g /\
    forall v, v ∈ values ->
      exists i j : nat,
        cell_of (axis_xs values) (axis_ys values) v
        = (Z.of_nat i, Z.of_nat j) /\
        cell g i j = Some (val_v v).
Proof.
  intros Hnd. destruct (build_grid_spec values) as (g & Hg & _ & Hcells).
  exists g. split; [done|]. intros v Hv.
  destruct (cell_of_in_range values v Hv) as (i & j & Hij & Hi & Hj).
  exists i, j. split; [done|]. rewrite Hcells by done.
  pose proof Hv as (before & after & Hsplit)%list_elem_of_split.
  assert (forall w, w ∈ after ->
            cell_of (axis_xs values) (axis_ys values) w
            <> (Z.of_nat i, Z.of_nat j)) as Hafter.
  { intros w Hw Hsame. rewrite <- Hij in Hsame.
    assert (w ∈ values) as Hwin.
    { rewrite Hsplit, elem_of_app. right. by right. }
    apply cell_of_inj in Hsame; [|done..].
    rewrite Hsplit, fmap_app, fmap_cons in Hnd.
    apply NoDup_app in Hnd as (_ & _ & Hnd).
    apply NoDup_cons in Hnd as [Hnot _]. apply Hnot.
    rewrite <- Hsame. by apply list_elem_of_fmap_2. }
  rewrite Hsplit at 3. by rewrite (written_last _ _ before v after).
Qed.

(** X5. When no rectangle has a negative size, the kept values have
    pairwise different pixel positions, so no two of them go to the same cell:
    the grid is built and holds the string of every kept value at the cell of
    its position. *)
Theorem kept_values_fill_own_cells
  (recognize : Rectangle -> string) (rectangles : list Rectangle) :
  Forall well_formed rectangles ->
  let values := extract_values recognize rectangles in
  NoDup (origin <$> values) /\
  exists g : Grid,
    build_grid values = Some g /\
    forall v, v ∈ values ->
      exists i j : nat,
        cell_of (axis_xs values) (axis_ys values) v
        = (Z.of_nat i, Z.of_nat j) /\
        cell g i j = Some (val_v v).
Proof.
  intros Hwf values.
  pose proof (kept_origins_NoDup recognize rectangles Hwf) as Hnd.
  split; [done|]. by apply grid_holds_values.
Qed.

Lemma kept_values_fill_own_cells_witness :
  NoDup (origin <$> extract_values (fun _ => "7"%string)
                      [mkRect 0 0 20 20; mkRect 5 5 20 20; mkRect 40 0 20 20]).
Proof.
  apply (kept_values_fill_own_cells (fun _ => "7"%string)
           [mkRect 0 0 20 20; mkRect 5 5 20 20; mkRect 40 0 20 20]).
  repeat constructor; simpl; lia.
Defined.

(** ** The sorted distinct positions and the unit *)

(** X6. Whatever the values, the array [uniq] of an axis, once filled and
    sorted, is strictly ascending, holds exactly the positions of the values
    on that axis, each once, and is no longer than [values]. *)
Theorem uniq_sorted_distinct (ax : Axis) (values : list Value) :
  StronglySorted Z.lt (uniq ax values) /\
  NoDup (uniq ax values) /\
  (forall p, p ∈ uniq ax values <-> exists v, v ∈ values /\ position ax v = p)
  /\ (length (uniq ax values) <= length values)%nat.
Proof.
  split; [apply uniq_ascending|]. split; [|split; [apply uniq_elem|]].
  - rewrite uniq_uniq_of. apply uniq_of_NoDup.
  - rewrite uniq_uniq_of, <- (length_fmap (position ax) values).
    apply submseteq_length, NoDup_submseteq; [apply uniq_of_NoDup|].
    intros p. by rewrite uniq_of_elem.
Qed.

Lemma consecutive_difference_elem uniq i p q :
  uniq !! i = Some p -> uniq !! S i = Some q ->
  q - p ∈ consecutive_differences uniq.
Proof.
  destruct uniq as [|first rest]; [done|]. simpl.
  revert first i. induction rest as [|cur rest IH]; intros first i; [done|].
  destruct i as [|i]; simpl.
  - intros [= ->] [= ->]. by left.
  - intros Hp Hq. right. by apply (IH cur i).
Qed.

Lemma min_delta_lower_bound uniq d :
  d ∈ consecutive_differences uniq -> min_delta_of uniq <= d.
Proof.
  rewrite min_delta_of_loop. destruct uniq as [|first rest];
    [by intros ?%elem_of_nil|].
  apply min_delta_loop_spec.
Qed.

(** X7. The unit of an axis is never zero, so [delta / min_delta] never
    divides by zero: it is at least 1 and at most every difference of
    consecutive sorted positions; with fewer than two distinct positions it
    keeps its initial value [Number.MAX_VALUE]. *)
Theorem unit_never_zero (ax : Axis) (values : list Value) :
  1 <= min_delta ax values /\
  (forall d, d ∈ consecutive_differences (uniq ax values) ->
     min_delta ax values <= d) /\
  ((length (uniq ax values) < 2)%nat ->
   min_delta ax values = Number_MAX_VALUE).
Proof.
  pose proof (min_delta_pos ax values) as Hpos.
  split; [lia|]. rewrite min_delta_min_delta_of. split.
  - apply min_delta_lower_bound.
  - rewrite min_delta_of_loop.
    destruct (uniq ax values) as [|p [|q rest]]; simpl; [done..|lia].
Qed.

(** ** Steps between consecutive positions *)

Lemma steps_between_div min_delta p q :
  0 < min_delta ->
  steps_between min_delta p q = (2 * (q - p) + min_delta) / (2 * min_delta).
Proof. intros Hpos. unfold steps_between. by apply Math_round_div. Qed.

(** X8. On every axis, two consecutive sorted positions [p < q] end up
    exactly [round((q - p) / unit)] slots apart, which is at least 1: the walk
    appends that many slots less one of gaps after the slot of [p], then the
    slot of [q], whether or not the distance is a multiple of the unit. *)
Theorem slots_between_consecutive
  (ax : Axis) (values : list Value) (i : nat) (p q : Z) :
  uniq ax values !! i = Some p -> uniq ax values !! S i = Some q ->
  let steps := steps_between (min_delta ax values) p q in
  steps = (2 * (q - p) + min_delta ax values) / (2 * min_delta ax values) /\
  1 <= steps /\
  exists pre post,
    build_axis (min_delta ax values) (take (S i) (uniq ax values))
    = pre ++ [Some p] /\
    axis ax values
    = pre ++ [Some p] ++ replicate (Z.to_nat (steps - 1)) gap ++ [Some q]
      ++ post.
Proof.
  intros Hp Hq steps. pose proof (min_delta_pos ax values) as Hpos.
  assert (steps
          = (2 * (q - p) + min_delta ax values) / (2 * min_delta ax values))
    as Hsteps by (by apply steps_between_div).
  split; [done|]. split.
  - rewrite Hsteps. apply Z.div_le_lower_bound; [lia|].
    assert (min_delta ax values <= q - p); [|lia].
    rewrite min_delta_min_delta_of.
    by apply min_delta_lower_bound, (consecutive_difference_elem _ i).
  - rewrite axis_build_axis.
    destruct (build_axis_split (min_delta ax values) _ i p Hp)
      as (pre & Htake & Hall & _).
    exists pre, (axis_tail (min_delta ax values) q
                   (drop (S (S i)) (uniq ax values))).
    split; [done|]. by rewrite Hall, (drop_S _ q (S i) Hq).
Qed.

Lemma slots_between_consecutive_witness :
  1 <= steps_between (min_delta X_axis [mkValue 0 0 "1"; mkValue 20 0 "2";
                                        mkValue 51 0 "3"]) 20 51.
Proof.
  apply (slots_between_consecutive X_axis
           [mkValue 0 0 "1"; mkValue 20 0 "2"; mkValue 51 0 "3"] 1%nat 20 51);
    reflexivity.
Defined.

(** ** The order of the slots *)

Lemma sorted_lookup_lt (l : list Z) (i j : nat) (a b : Z) :
  StronglySorted Z.lt l -> (i < j)%nat ->
  l !! i = Some a -> l !! j = Some b -> a < b.
Proof.
  intros Hs. revert i j. induction Hs as [|x l Hs IH Hall]; intros i j Hlt;
    [done|].
  destruct j as [|j]; [lia|]. destruct i as [|i]; simpl.
  - intros [= ->] Hb. rewrite Forall_forall in Hall.
    apply Hall. by eapply list_elem_of_lookup_2.
  - apply IH. lia.
Qed.

Lemma sorted_lookup_index (l : list Z) (i j : nat) (a b : Z) :
  StronglySorted Z.lt l ->
  l !! i = Some a -> l !! j = Some b -> a < b -> (i < j)%nat.
Proof.
  intros Hs Ha Hb Hlt.
  destruct (Nat.lt_trichotomy i j) as [?|[->|Hgt]]; [done| |].
  - rewrite Ha in Hb. injection Hb as ->. lia.
  - pose proof (sorted_lookup_lt l j i b a Hs Hgt Hb Ha). lia.
Qed.

Lemma axis_tail_length min_delta prev rest :
  (length rest <= length (axis_tail min_delta prev rest))%nat.
Proof.
  revert prev. induction rest as [|cur rest IH]; intros prev; simpl; [done|].
  rewrite length_app. simpl. specialize (IH cur). lia.
Qed.

(** The walk up to a later position is longer than up to an earlier one. *)
Lemma build_axis_prefix_longer min_delta uniq k k' p q :
  uniq !! k = Some p -> uniq !! k' = Some q -> (k < k')%nat ->
  (length (build_axis min_delta (take (S k) uniq))
   < length (build_axis min_delta (take (S k') uniq)))%nat.
Proof.
  intros Hp Hq Hlt.
  assert (take (S k') uniq !! k = Some p) as Hp'.
  { by rewrite lookup_take_lt by lia. }
  destruct (build_axis_split min_delta _ k p Hp')
    as (pre & Htake & Hall & _).
  rewrite take_take in Htake.
  replace (S k `min` S k')%nat with (S k) in Htake by lia.
  rewrite Htake, Hall, !length_app. simpl.
  pose proof (axis_tail_length min_delta p (drop (S k) (take (S k') uniq)))
    as Hlen.
  rewrite length_drop, length_take in Hlen.
  apply lookup_lt_Some in Hq. lia.
Qed.

(** X9. When no position is negative, the indices the last loop looks up
    grow with the pixel position: of two values, the one further right (or
    further down) gets the strictly larger column (or row) index, and values
    at the same position get the same index. *)
Theorem axis_index_monotone (ax : Axis) (values : list Value) :
  (forall v, v ∈ values -> 0 <= position ax v) ->
  forall v w, v ∈ values -> w ∈ values ->
    (position ax v < position ax w <->
     indexOf (axis ax values) (Some (position ax v))
     < indexOf (axis ax values) (Some (position ax w))).
Proof.
  intros Hnonneg.
  assert (NoDup (uniq ax values)) as Hnd.
  { rewrite uniq_uniq_of. apply uniq_of_NoDup. }
  assert (forall v w, v ∈ values -> w ∈ values ->
            position ax v < position ax w ->
            indexOf (axis ax values) (Some (position ax v))
            < indexOf (axis ax values) (Some (position ax w))) as Hmono.
  { intros v w Hv Hw Hlt.
    assert (position ax v ∈ uniq ax values) as (k & Hk)%list_elem_of_lookup
      by (apply uniq_elem; by exists v).
    assert (position ax w ∈ uniq ax values) as (k' & Hk')%list_elem_of_lookup
      by (apply uniq_elem; by exists w).
    destruct (real_slot_of_position (min_delta ax values) _ k _ Hnd
                (Hnonneg v Hv) Hk) as (pre & post & Htake & _ & _ & _ & Hi).
    destruct (real_slot_of_position (min_delta ax values) _ k' _ Hnd
                (Hnonneg w Hw) Hk') as (pre' & post' & Htake' & _ & _ & _ & Hi').
    rewrite axis_build_axis, Hi, Hi'.
    assert (k < k')%nat as Hkk
      by (by eapply sorted_lookup_index; [apply uniq_ascending|..]).
    pose proof (build_axis_prefix_longer (min_delta ax values) _ k k' _ _
                  Hk Hk' Hkk) as Hlen.
    rewrite Htake, Htake', !length_app in Hlen. simpl in Hlen. lia. }
  intros v w Hv Hw. split; [by apply Hmono|].
  intros Hlt.
  destruct (Z.lt_trichotomy (position ax v) (position ax w))
    as [?|[Heq|Hgt]]; [done| |].
  - rewrite Heq in Hlt. lia.
  - pose proof (Hmono w v Hw Hv Hgt). lia.
Qed.

Lemma axis_index_monotone_witness :
  indexOf (axis X_axis example_values) (Some 20)
  < indexOf (axis X_axis example_values) (Some 60).
Proof.
  assert (forall v, v ∈ example_values -> 0 <= position X_axis v) as Hnonneg.
  { intros v Hv. apply list_elem_of_In in Hv. simpl in Hv.
    destruct Hv as [<-|[<-|[<-|[<-|[]]]]]; simpl; lia. }
  assert (mkValue 20 0 "1" ∈ example_values) as Hv by (right; left).
  assert (mkValue 60 0 "2" ∈ example_values) as Hw by (right; right; left).
  apply (proj1 (axis_index_monotone X_axis example_values Hnonneg
                  (mkValue 20 0 "1") (mkValue 60 0 "2") Hv Hw)).
  simpl. lia.
Defined.

(** ** The ends of an axis *)

Lemma last_axis_tail min_delta prev rest :
  last (Some prev :: axis_tail min_delta prev rest)
  = Some <$> last (prev :: rest).
Proof.
  revert prev. induction rest as [|cur rest IH]; intros prev; [done|].
  rewrite last_cons_cons, <- IH.
  apply (last_app_cons
           (Some prev
            :: replicate (Z.to_nat (steps_between min_delta prev cur - 1)) gap)).
Qed.

(** X10. With at least one value, an axis begins with the slot of the least
    position and ends with the slot of the greatest: the walk never puts a
    gap slot before the first or after the last position. *)
Theorem axis_ends_are_positions (ax : Axis) (values : list Value) :
  values <> [] ->
  exists lo hi : Z,
    (exists v, v ∈ values /\ position ax v = lo) /\
    (exists v, v ∈ values /\ position ax v = hi) /\
    (forall v, v ∈ values -> lo <= position ax v <= hi) /\
    head (axis ax values) = Some (Some lo) /\
    last (axis ax values) = Some (Some hi).
Proof.
  intros Hne. pose proof (uniq_ascending ax values) as Hs.
  assert (forall p, p ∈ uniq ax values ->
            exists v, v ∈ values /\ position ax v = p) as Hfrom.
  { intros p. apply uniq_elem. }
  assert (forall v, v ∈ values -> position ax v ∈ uniq ax values) as Hto.
  { intros v Hv. apply uniq_elem. by exists v. }
  rewrite axis_build_axis.
  destruct (uniq ax values) as [|first rest] eqn:Hu.
  { destruct values as [|v values]; [done|].
    specialize (Hto v). rewrite elem_of_nil in Hto. exfalso. apply Hto.
    by left. }
  destruct (proj2 (last_is_Some (first :: rest))) as [hi Hlast]; [done|].
  exists first, hi. split; [apply Hfrom; by left|].
  split; [by apply Hfrom, last_Some_elem_of|]. split.
  - intros v (k & Hk)%Hto%list_elem_of_lookup.
    rewrite last_lookup in Hlast.
    assert ((first :: rest) !! 0%nat = Some first) as Hfirst by done.
    split.
    + destruct k as [|k]; [simpl in Hk; injection Hk as <-; lia|].
      pose proof (sorted_lookup_lt _ 0 (S k) _ _ Hs ltac:(lia) Hfirst Hk).
      lia.
    + assert (k <= pred (length (first :: rest)))%nat as Hle.
      { apply lookup_lt_Some in Hk. simpl in *. lia. }
      destruct (decide (k = pred (length (first :: rest)))) as [->|Hneq].
      * assert (position ax v = hi) by congruence. lia.
      * assert (k < pred (length (first :: rest)))%nat as Hlt by lia.
        pose proof (sorted_lookup_lt _ _ _ _ _ Hs Hlt Hk Hlast). lia.
  - rewrite build_axis_cons. split; [done|].
    by rewrite last_axis_tail, Hlast.
Qed.

Lemma axis_ends_are_positions_witness :
  exists lo hi : Z,
    head (axis X_axis example_values) = Some (Some lo) /\
    last (axis X_axis example_values) = Some (Some hi).
Proof.
  destruct (axis_ends_are_positions X_axis example_values)
    as (lo & hi & _ & _ & _ & Hhead & Hlast); [discriminate|].
  by exists lo, hi.
Defined.

(** ** The shape of the text *)

Lemma build_axis_nonempty min_delta uniq :
  (1 <= length (build_axis min_delta uniq))%nat.
Proof.
  rewrite build_axis_loop. destruct uniq as [|first rest]; [done|].
  rewrite axis_loop_tail. simpl. lia.
Qed.

Lemma length_join_rows (c : nat) (rows : list string) :
  Forall (fun s => String.length s = c) rows -> rows <> [] ->
  String.length (join newline rows) = (length rows * c + (length rows - 1))%nat.
Proof.
  unfold join. induction 1 as [|s rows Hs Hrows IH]; intros Hne; [done|].
  destruct rows as [|s' rows]; [simpl; lia|].
  change (String.concat newline (s :: s' :: rows))
    with (s ++ newline ++ String.concat newline (s' :: rows))%string.
  rewrite !string_length_append, Hs, IH by done. simpl. lia.
Qed.

Lemma serialized_row_lengths values :
  Forall (fun v => String.length (val_v v) = 1%nat) values ->
  exists g : Grid,
    build_grid values = Some g /\
    length g = length (axis_ys values) /\
    Forall (fun row => String.length (join ""%string row)
                       = length (axis_xs values)) g.
Proof.
  intros Hsingle.
  destruct (build_grid_spec values) as (g & Hg & [Hrows Hcols] & Hcells).
  exists g. split; [done|]. split; [done|].
  rewrite Forall_forall in Hsingle. rewrite Forall_forall in Hcols.
  apply Forall_forall. intros row Hrow.
  rewrite <- (Hcols row Hrow). apply length_join_cells.
  apply list_elem_of_lookup in Hrow as (i & Hi).
  apply Forall_forall. intros s (j & Hj)%list_elem_of_lookup.
  assert ((i < length (axis_ys values))%nat) as Hilt.
  { apply lookup_lt_Some in Hi. lia. }
  assert ((j < length (axis_xs values))%nat) as Hjlt.
  { apply lookup_lt_Some in Hj.
    rewrite (Hcols row) in Hj; [done|]. by eapply list_elem_of_lookup_2. }
  pose proof (Hcells i j Hilt Hjlt) as Hc.
  unfold cell in Hc. rewrite Hi, Hj in Hc. injection Hc as ->.
  by apply written_inv.
Qed.

(** X11. When every value is a single character, the text has exactly
    [rows * cols + rows - 1] characters, where [rows >= 1] and [cols >= 1]
    are the numbers of slots of the y and the x axis: [cols] characters per
    row and one newline between two rows, none at the end. *)
Theorem text_length (values : list Value) :
  Forall (fun v => String.length (val_v v) = 1%nat) values ->
  let rows := length (axis_ys values) in
  let cols := length (axis_xs values) in
  (1 <= rows)%nat /\ (1 <= cols)%nat /\
  exists text,
    grid_text values = Some text /\
    String.length text = (rows * cols + (rows - 1))%nat.
Proof.
  intros Hsingle rows cols.
  split; [apply build_axis_nonempty|]. split; [apply build_axis_nonempty|].
  destruct (serialized_row_lengths values Hsingle) as (g & Hg & Hrows & Hlen).
  exists (serialize g). split; [unfold grid_text; by rewrite Hg|].
  unfold serialize.
  rewrite (length_join_rows cols).
  - by rewrite length_fmap, Hrows.
  - by apply Forall_fmap.
  - intros Hnil%fmap_nil_inv.
    pose proof (build_axis_nonempty (min_delta_y values) (uniq_y values)).
    rewrite Hnil in Hrows. unfold axis_ys in Hrows. simpl in Hrows. lia.
Qed.

Lemma text_length_witness :
  exists text,
    grid_text example_values = Some text /\
    String.length text = 9%nat.
Proof.
  destruct (text_length example_values) as (_ & _ & text & Htext & Hlen).
  - repeat constructor.
  - exists text. split; [exact Htext|exact Hlen].
Defined.

(** ** Counting characters *)

Lemma count_char_append c (s1 s2 : string) :
  count_char c (s1 ++ s2)%string = (count_char c s1 + count_char c s2)%nat.
Proof. induction s1 as [|b s1 IH]; simpl; [done|]. rewrite IH. lia. Qed.

Lemma count_char_join c sep (l : list string) :
  Forall (fun s => count_char c s = 0%nat) l ->
  count_char c (join sep l) = ((length l - 1) * count_char c sep)%nat.
Proof.
  unfold join. induction 1 as [|s l Hs Hl IH]; [done|].
  destruct l as [|s' l]; [simpl; lia|].
  change (String.concat sep (s :: s' :: l))
    with (s ++ sep ++ String.concat sep (s' :: l))%string.
  rewrite !count_char_append, Hs, IH. simpl. lia.
Qed.

Lemma count_char_zero c s : count_char c s = 0%nat <-> ~ char_in c s.
Proof.
  unfold char_in. induction s as [|b s IH]; simpl; [tauto|].
  destruct (Ascii.eqb_spec b c) as [->|Hne]; simpl.
  - split; [lia|]. intros H. exfalso. apply H. by left.
  - rewrite IH. split; [intros H [?|?]; [done|by apply H]|tauto].
Qed.

Lemma char_in_all (P : ascii -> Prop) c s :
  string_all P s -> char_in c s -> P c.
Proof.
  unfold string_all, char_in. rewrite List.Forall_forall. auto.
Qed.

Lemma value_of_text_no_newline text :
  count_char (ascii_of_nat 10) (value_of_text text) = 0%nat.
Proof.
  apply count_char_zero. intros Hin.
  apply (char_in_all _ _ _ (value_of_text_chars text)) in Hin
    as [Hdigit| Hq]; [|discriminate Hq].
  unfold decimal_digit in Hdigit. simpl in Hdigit.
  repeat destruct Hdigit as [Hdigit|Hdigit];
    first [discriminate Hdigit | contradiction].
Qed.

(** The cells of the grid satisfy what the blank and all values satisfy. *)
Lemma grid_cells_inv (P : string -> Prop) values g :
  build_grid values = Some g ->
  P " "%string -> (forall v, v ∈ values -> P (val_v v)) ->
  Forall (Forall P) g.
Proof.
  intros Hg Hblank Hvalues.
  destruct (build_grid_spec values) as (g' & Hg' & [Hrows Hcols] & Hcells).
  rewrite Hg in Hg'. injection Hg' as <-.
  rewrite Forall_forall in Hcols.
  apply Forall_forall. intros row Hrow.
  apply list_elem_of_lookup in Hrow as (i & Hi).
  apply Forall_forall. intros s (j & Hj)%list_elem_of_lookup.
  assert ((i < length (axis_ys values))%nat) as Hilt.
  { apply lookup_lt_Some in Hi. lia. }
  assert ((j < length (axis_xs values))%nat) as Hjlt.
  { apply lookup_lt_Some in Hj.
    rewrite (Hcols row) in Hj; [done|]. by eapply list_elem_of_lookup_2. }
  pose proof (Hcells i j Hilt Hjlt) as Hc.
  unfold cell in Hc. rewrite Hi, Hj in Hc. injection Hc as ->.
  by apply written_inv.
Qed.

(** X12. Whatever the OCR returns, the text produced from the rectangles
    has exactly one line per slot of the y axis: it holds [rows - 1]
    newlines, as no value holds a newline. *)
Theorem text_line_count
  (recognize : Rectangle -> string) (rectangles : list Rectangle) :
  let values := extract_values recognize rectangles in
  exists text,
    processImage_text recognize rectangles = Some text /\
    count_char (ascii_of_nat 10) text = (length (axis_ys values) - 1)%nat.
Proof.
  intros values.
  destruct (build_grid_spec values) as (g & Hg & [Hrows Hcols] & Hcells).
  exists (serialize g).
  split; [unfold processImage_text, grid_text; fold values; by rewrite Hg|].
  unfold serialize. rewrite count_char_join.
  - rewrite length_fmap, Hrows. simpl. lia.
  - apply Forall_fmap.
    pose proof (grid_cells_inv
                  (fun s => count_char (ascii_of_nat 10) s = 0%nat)
                  values g Hg) as Hinv.
    eapply Forall_impl; [apply Hinv|].
    + reflexivity.
    + intros v (rect & _ & ->)%extract_values_elem.
      apply value_of_text_no_newline.
    + intros row Hrow. simpl. rewrite count_char_join by done. simpl. lia.
Qed.

(** ** The hint for unrecognised values *)

Lemma char_in_append c (s1 s2 : string) :
  char_in c (s1 ++ s2)%string <-> char_in c s1 \/ char_in c s2.
Proof.
  unfold char_in. induction s1 as [|b s1 IH]; simpl; [tauto|].
  rewrite IH. tauto.
Qed.

Lemma string_indexOf_from_spec c s i :
  (string_indexOf_from c s i = -1 /\ ~ char_in c s) \/
  (exists pre post,
     s = (pre ++ String c post)%string /\ ~ char_in c pre /\
     string_indexOf_from c s i = i + Z.of_nat (String.length pre)).
Proof.
  unfold char_in. revert i. induction s as [|b s IH]; intros i; simpl.
  - left. tauto.
  - destruct (Ascii.eqb_spec b c) as [->|Hne].
    + right. exists ""%string, s. simpl. split; [done|]. split; [tauto|lia].
    + destruct (IH (i + 1)) as [[Hi Hnot]|(pre & post & -> & Hnot & Hi)].
      * left. split; [done|]. intros [?|?]; [done|by apply Hnot].
      * right. exists (String b pre), post. split; [done|]. split.
        -- simpl. intros [?|?]; [done|by apply Hnot].
        -- rewrite Hi. simpl String.length. lia.
Qed.

Lemma question_hint_char_in text :
  question_hint text = true <-> char_in "?"%char text.
Proof.
  unfold question_hint, string_indexOf. rewrite Z.leb_le.
  destruct (string_indexOf_from_spec "?"%char text 0)
    as [[-> Hnot]|(pre & post & -> & _ & ->)].
  - split; [lia|done].
  - split; [|lia]. intros _. apply char_in_append. right. by left.
Qed.

Lemma char_in_join c sep (l : list string) :
  ~ char_in c sep ->
  char_in c (join sep l) <-> exists s, s ∈ l /\ char_in c s.
Proof.
  intros Hsep. unfold join. induction l as [|s l IH].
  - simpl. split; [intros []|]. by intros (s & ?%elem_of_nil & _).
  - destruct l as [|s' l].
    + simpl. split.
      * intros H. exists s. split; [by left|done].
      * intros (t & ->%list_elem_of_singleton & H). done.
    + change (String.concat sep (s :: s' :: l))
        with (s ++ sep ++ String.concat sep (s' :: l))%string.
      rewrite !char_in_append, IH. split.
      * intros [H|[H|(t & Ht & H)]]; [|done|].
        -- exists s. split; [by left|done].
        -- exists t. split; [by right|done].
      * intros (t & [->|Ht]%elem_of_cons & H); [by left|].
        right. right. by exists t.
Qed.

Lemma value_of_text_unknown text :
  (char_in "?"%char (value_of_text text) -> match_digits text = None) /\
  (match_digits text = None <-> value_of_text text = "?"%string).
Proof.
  unfold value_of_text. destruct (match_digits text) as [m|] eqn:E.
  - apply match_digits_Some in E as (_ & _ & _ & _ & _ & Hall & _).
    assert (~ char_in "?"%char m) as Hnot.
    { intros Hin. apply (char_in_all _ _ _ Hall) in Hin.
      unfold decimal_digit in Hin. simpl in Hin.
      repeat destruct Hin as [Hin|Hin];
        first [discriminate Hin | contradiction]. }
    split; [done|]. split; [done|]. intros ->. exfalso. apply Hnot. by left.
  - done.
Qed.

(** X13. When no rectangle has a negative size, the hint with the replace
    button is rendered for the text of an image exactly when the OCR text of
    some kept rectangle held no digit: the text holds a [?] if and only if
    some value is the unknown mark. *)
Theorem unknown_value_shows_hint
  (recognize : Rectangle -> string) (rectangles : list Rectangle) :
  Forall well_formed rectangles ->
  exists text,
    processImage_text recognize rectangles = Some text /\
    (question_hint text = true <->
     exists rect,
       value_of_rect recognize rect ∈ extract_values recognize rectangles /\
       match_digits (recognize rect) = None).
Proof.
  intros Hwf.
  destruct (grid_holds_values (extract_values recognize rectangles)
              (kept_origins_NoDup recognize rectangles Hwf))
    as (g & Hg & Hheld).
  exists (serialize g).
  split; [unfold processImage_text, grid_text; by rewrite Hg|].
  rewrite question_hint_char_in. unfold serialize.
  rewrite char_in_join
    by (unfold char_in; simpl; intros [H|[]]; discriminate H).
  split.
  - intros (rowtext & (row & -> & Hrow)%list_elem_of_fmap & Hin).
    apply char_in_join in Hin as (s & Hs & Hin); [|by intros []].
    pose proof (grid_cells_inv
      (fun s => s = " "%string \/
                exists v, v ∈ extract_values recognize rectangles /\
                          s = val_v v)
      _ g Hg) as Hinv.
    rewrite Forall_forall in Hinv.
    specialize (Hinv (or_introl eq_refl)
                  (fun v Hv => or_intror (ex_intro _ v (conj Hv eq_refl)))
                  row Hrow).
    rewrite Forall_forall in Hinv.
    destruct (Hinv s Hs) as [->|(v & Hv & ->)].
    + unfold char_in in Hin. simpl in Hin.
      destruct Hin as [Hin|[]]. discriminate Hin.
    + pose proof Hv as (rect & _ & ->)%extract_values_elem.
      exists rect. split; [done|].
      apply (proj1 (value_of_text_unknown (recognize rect))). exact Hin.
  - intros (rect & Hv & Hnone).
    destruct (Hheld _ Hv) as (i & j & _ & Hcell).
    unfold cell in Hcell. destruct (g !! i) as [row|] eqn:Hi; [|done].
    exists (join ""%string row). split.
    + apply list_elem_of_fmap_2. by eapply list_elem_of_lookup_2.
    + apply char_in_join; [by intros []|].
      exists (val_v (value_of_rect recognize rect)).
      split; [by eapply list_elem_of_lookup_2|].
      simpl. apply value_of_text_unknown in Hnone. rewrite Hnone. by left.
Qed.

Lemma unknown_value_shows_hint_witness :
  exists text,
    processImage_text (fun _ => "x"%string) [mkRect 0 0 20 20] = Some text /\
    question_hint text = true.
Proof.
  destruct (unknown_value_shows_hint (fun _ => "x"%string) [mkRect 0 0 20 20])
    as (text & Htext & Hhint).
  - repeat constructor; simpl; lia.
  - exists text. split; [exact Htext|]. apply Hhint.
    exists (mkRect 0 0 20 20). split; [left|reflexivity].
Defined.

(** ** The replace button *)

Lemma string_replace_spec pattern replacement s i :
  (~ char_in pattern s /\
   string_indexOf_from pattern s i = -1 /\
   string_replace pattern replacement s = s) \/
  (exists pre post,
     s = (pre ++ String pattern post)%string /\
     ~ char_in pattern pre /\
     string_indexOf_from pattern s i = i + Z.of_nat (String.length pre) /\
     string_replace pattern replacement s
     = (pre ++ String replacement post)%string).
Proof.
  unfold char_in. revert i. induction s as [|b s IH]; intros i; simpl.
  - left. tauto.
  - destruct (Ascii.eqb_spec b pattern) as [->|Hne].
    + right. exists ""%string, s. simpl.
      split; [done|]. split; [tauto|]. split; [lia|done].
    + destruct (IH (i + 1))
        as [(Hnot & Hi & Hr)|(pre & post & -> & Hnot & Hi & Hr)].
      * left. split; [intros [?|?]; [done|by apply Hnot]|].
        split; [done|]. by rewrite Hr.
      * right. exists (String b pre), post.
        split; [done|]. split.
        -- simpl. intros [?|?]; [done|by apply Hnot].
        -- split; [rewrite Hi; simpl String.length; lia|].
           simpl. by rewrite Hr.
Qed.

(** X14. A click on the replace button changes the first [?] of the text
    into [8] and nothing else, at the index [indexOf] reports; a text without
    [?] shows no button and would be left as it is. *)
Theorem replace_question_first (text : string) :
  (~ char_in "?"%char text /\
   question_hint text = false /\
   replace_question text = text) \/
  (exists pre post,
     text = (pre ++ String "?" post)%string /\
     ~ char_in "?"%char pre /\
     question_hint text = true /\
     string_indexOf "?"%char text = Z.of_nat (String.length pre) /\
     replace_question text = (pre ++ String "8" post)%string).
Proof.
  unfold question_hint, replace_question, string_indexOf.
  destruct (string_replace_spec "?"%char "8"%char text 0)
    as [(Hnot & -> & Hr)|(pre & post & Hs & Hnot & -> & Hr)].
  - left. split; [done|]. by split.
  - right. exists pre, post. split; [done|]. split; [done|].
    split; [apply Z.leb_le; lia|]. split; [lia|done].
Qed.

Lemma replace_question_length text :
  String.length (replace_question text) = String.length text.
Proof.
  unfold replace_question. induction text as [|b text IH]; simpl; [done|].
  destruct (Ascii.eqb b "?"); simpl; [done|]. by rewrite IH.
Qed.

Lemma replace_question_count text :
  count_char "?"%char (replace_question text)
  = (count_char "?"%char text - 1)%nat.
Proof.
  unfold replace_question. induction text as [|b text IH]; simpl; [done|].
  destruct (Ascii.eqb_spec b "?"%char) as [->|Hne]; simpl.
  - lia.
  - rewrite (proj2 (Ascii.eqb_neq b "?"%char) Hne). simpl. apply IH.
Qed.

Lemma replace_question_others c text :
  c <> "?"%char -> c <> "8"%char ->
  count_char c (replace_question text) = count_char c text.
Proof.
  intros Hq H8. unfold replace_question.
  induction text as [|b text IH]; [done|]. cbn [string_replace].
  destruct (Ascii.eqb_spec b "?"%char) as [->|Hne]; cbn [count_char].
  - destruct (Ascii.eqb_spec "8"%char c); [congruence|].
    destruct (Ascii.eqb_spec "?"%char c); [congruence|done].
  - by rewrite IH.
Qed.

Lemma question_hint_count text :
  question_hint text = true <-> (0 < count_char "?"%char text)%nat.
Proof.
  rewrite question_hint_char_in.
  pose proof (count_char_zero "?"%char text) as Hz.
  destruct (decide (count_char "?"%char text = 0%nat)) as [H0|Hpos].
  - split; [|lia]. intros Hin. by apply Hz in H0.
  - split; [lia|]. intros _.
    destruct (string_indexOf_from_spec "?"%char text 0)
      as [[_ Hnot]|(pre & post & -> & _)].
    + apply Hz in Hnot. lia.
    + apply char_in_append. right. by left.
Qed.

(** X15. Each click on the replace button removes exactly one [?]: after [n]
    clicks the text has the same length, the same number of every character
    other than [?] and [8] (so the same lines), and [n] fewer [?]; the
    button is still shown exactly when [n] is below the number of [?] the text
    began with. *)
Theorem replace_clicks_count (n : nat) (text : string) :
  String.length (replace_clicks n text) = String.length text /\
  count_char "?"%char (replace_clicks n text)
  = (count_char "?"%char text - n)%nat /\
  (forall c, c <> "?"%char -> c <> "8"%char ->
     count_char c (replace_clicks n text) = count_char c text) /\
  (question_hint (replace_clicks n text) = true <->
   (n < count_char "?"%char text)%nat).
Proof.
  assert (String.length (replace_clicks n text) = String.length text /\
          count_char "?"%char (replace_clicks n text)
          = (count_char "?"%char text - n)%nat /\
          (forall c, c <> "?"%char -> c <> "8"%char ->
             count_char c (replace_clicks n text) = count_char c text))
    as (Hlen & Hcount & Hothers).
  { unfold replace_clicks. induction n as [|n (IH1 & IH2 & IH3)]; simpl.
    - split; [done|]. split; [lia|done].
    - rewrite replace_question_length, replace_question_count, IH1, IH2.
      split; [done|]. split; [lia|].
      intros c Hq H8. rewrite replace_question_others by done. by apply IH3. }
  split; [done|]. split; [done|]. split; [done|].
  rewrite question_hint_count, Hcount. lia.
Qed.

(** ** The state of the component *)




(** ** Islands and blanks *)

Lemma value_of_text_not_blank text : value_of_text text <> " "%string.
Proof.
  intros Heq. pose proof (value_of_text_chars text) as Hall.
  rewrite Heq in Hall. unfold string_all in Hall. simpl in Hall.
  apply Forall_cons in Hall as [[Hdigit|Hq] _]; [|discriminate Hq].
  unfold decimal_digit in Hdigit. simpl in Hdigit.
  repeat destruct Hdigit as [Hdigit|Hdigit];
    first [discriminate Hdigit | contradiction].
Qed.

Lemma NoDup_fmap_eq {A B : Type} (f : A -> B) (l : list A) (x y : A) :
  NoDup (f <$> l) -> x ∈ l -> y ∈ l -> f x = f y -> x = y.
Proof.
  intros Hnd (i & Hi)%list_elem_of_lookup (j & Hj)%list_elem_of_lookup Heq.
  assert (i = j) as ->.
  { apply (NoDup_lookup (f <$> l) i j (f x)); [done|..].
    - by rewrite list_lookup_fmap, Hi.
    - by rewrite list_lookup_fmap, Hj, Heq. }
  congruence.
Qed.

(** X17. When no rectangle has a negative size, the kept rectangles and the
    cells of the grid that are not blank correspond one to one: a cell is
    blank exactly when no value goes to it, and two different values never go
    to the same cell. *)
Theorem islands_are_nonblank_cells
  (recognize : Rectangle -> string) (rectangles : list Rectangle) :
  Forall well_formed rectangles ->
  let values := extract_values recognize rectangles in
  exists g : Grid,
    build_grid values = Some g /\
    (forall i j,
       (i < length (axis_ys values))%nat -> (j < length (axis_xs values))%nat ->
       (cell g i j = Some " "%string <->
        forall v, v ∈ values ->
          cell_of (axis_xs values) (axis_ys values) v
          <> (Z.of_nat i, Z.of_nat j))) /\
    (forall v w, v ∈ values -> w ∈ values ->
       cell_of (axis_xs values) (axis_ys values) v
       = cell_of (axis_xs values) (axis_ys values) w ->
       v = w).
Proof.
  intros Hwf values.
  pose proof (kept_origins_NoDup recognize rectangles Hwf) as Hnd.
  fold values in Hnd.
  destruct (grid_holds_values values Hnd) as (g & Hg & Hheld).
  destruct (build_grid_spec values) as (g' & Hg' & _ & Hcells).
  rewrite Hg in Hg'. injection Hg' as <-.
  exists g. split; [done|]. split.
  - intros i j Hi Hj. split.
    + intros Hblank v Hv Hcell.
      destruct (Hheld v Hv) as (i' & j' & Hcell' & Hval).
      rewrite Hcell in Hcell'.
      injection Hcell' as <-%Nat2Z.inj <-%Nat2Z.inj.
      rewrite Hblank in Hval. injection Hval as Hval.
      pose proof Hv as (rect & _ & ->)%extract_values_elem.
      simpl in Hval. symmetry in Hval.
      by apply value_of_text_not_blank in Hval.
    + intros Hno. rewrite Hcells by done. by rewrite written_blank.
  - intros v w Hv Hw Hsame. apply cell_of_inj in Hsame; [|done..].
    by apply (NoDup_fmap_eq origin values).
Qed.

Lemma islands_are_nonblank_cells_witness :
  exists g : Grid,
    build_grid (extract_values (fun _ => "7"%string)
                  [mkRect 0 0 20 20; mkRect 40 0 20 20]) = Some g.
Proof.
  destruct (islands_are_nonblank_cells (fun _ => "7"%string)
              [mkRect 0 0 20 20; mkRect 40 0 20 20]) as (g & Hg & _).
  - repeat constructor; simpl; lia.
  - by exists g.
Defined.

(** ** Gap lines *)

Lemma build_axis_elem_inv min_delta uniq s :
  s ∈ build_axis min_delta uniq ->
  s = None \/ s = gap \/ exists c, s = Some c /\ c ∈ uniq.
Proof.
  rewrite build_axis_loop. destruct uniq as [|first rest].
  - intros ->%list_elem_of_singleton. by left.
  - rewrite axis_loop_tail. intros [Hs|Hs]%elem_of_app.
    + apply list_elem_of_singleton in Hs as ->.
      right. right. exists first. split; [done|]. by left.
    + destruct (axis_tail_elem _ _ _ _ Hs) as [->|(c & -> & Hc)];
        [right; by left|].
      right. right. exists c. split; [done|]. by right.
Qed.

(** A slot holding a position other than [-1] is the slot [indexOf] finds for
    that position. *)
Lemma slot_lookup_index ax values (j : nat) (p : Z) :
  (forall v, v ∈ values -> 0 <= position ax v) ->
  axis ax values !! j = Some (Some p) -> p <> -1 ->
  (exists v, v ∈ values /\ position ax v = p) /\
  indexOf (axis ax values) (Some p) = Z.of_nat j.
Proof.
  intros Hnonneg Hj Hp.
  assert (p ∈ uniq ax values) as Hin.
  { pose proof (list_elem_of_lookup_2 _ _ _ Hj) as Hs.
    rewrite axis_build_axis in Hs.
    apply build_axis_elem_inv in Hs as [?|[Hgap|(c & [= <-] & Hc)]];
      [done| |done].
    unfold gap in Hgap. congruence. }
  pose proof (proj1 (uniq_elem ax values p) Hin) as (v & Hv & Hpv).
  split; [by exists v|].
  apply list_elem_of_lookup in Hin as (k & Hk).
  assert (NoDup (uniq ax values)) as Hnd.
  { rewrite uniq_uniq_of. apply uniq_of_NoDup. }
  assert (0 <= p) as Hp0 by (rewrite <- Hpv; by apply Hnonneg).
  destruct (real_slot_of_position (min_delta ax values) _ k p Hnd Hp0 Hk)
    as (pre & post & _ & Hall & Hpre & Hpost & Hindex).
  rewrite <- axis_build_axis in Hall, Hindex. rewrite Hindex. f_equal.
  rewrite Hall in Hj.
  destruct (Nat.lt_trichotomy j (length pre)) as [Hlt|[->|Hgt]]; [|done|].
  - rewrite lookup_app_l in Hj by done.
    apply list_elem_of_lookup_2 in Hj. done.
  - rewrite lookup_app_r in Hj by lia.
    destruct (j - length pre)%nat as [|n] eqn:E; [lia|]. simpl in Hj.
    apply list_elem_of_lookup_2 in Hj. done.
Qed.

Lemma gap_slot_not_looked_up ax values v :
  (forall v, v ∈ values -> 0 <= position ax v) -> v ∈ values ->
  axis ax values
    !! Z.to_nat (indexOf (axis ax values) (Some (position ax v)))
  <> Some gap.
Proof.
  intros Hnonneg Hv.
  destruct (indexOf_elem _ _ (axis_elem ax values v Hv)) as (n & -> & Hn & _).
  rewrite Nat2Z.id, Hn. unfold gap. intros [= Heq].
  specialize (Hnonneg v Hv). lia.
Qed.

(** X18. When no position is negative and no two values share a position, a
    column of the grid under a gap slot of the x axis is blank from top to
    bottom, and every other column holds the string of a value at that
    position; likewise for the rows and the y axis. *)
Theorem gap_lines_blank (values : list Value) :
  (forall v, v ∈ values -> 0 <= val_x v /\ 0 <= val_y v) ->
  NoDup (origin <$> values) ->
  exists g : Grid,
    build_grid values = Some g /\
    (forall i j,
       (i < length (axis_ys values))%nat -> (j < length (axis_xs values))%nat ->
       axis_xs values !! j = Some gap \/ axis_ys values !! i = Some gap ->
       cell g i j = Some " "%string) /\
    (forall j p,
       axis_xs values !! j = Some (Some p) -> p <> -1 ->
       exists i v, v ∈ values /\ val_x v = p /\ cell g i j = Some (val_v v)) /\
    (forall i p,
       axis_ys values !! i = Some (Some p) -> p <> -1 ->
       exists j v, v ∈ values /\ val_y v = p /\ cell g i j = Some (val_v v)).
Proof.
  intros Hnonneg Hnd.
  assert (forall v, v ∈ values -> 0 <= position X_axis v) as Hx
    by (intros v Hv; by apply Hnonneg).
  assert (forall v, v ∈ values -> 0 <= position Y_axis v) as Hy
    by (intros v Hv; by apply Hnonneg).
  destruct (grid_holds_values values Hnd) as (g & Hg & Hheld).
  destruct (build_grid_spec values) as (g' & Hg' & _ & Hcells).
  rewrite Hg in Hg'. injection Hg' as <-.
  exists g. split; [done|]. split; [|split].
  - intros i j Hi Hj Hgap. rewrite Hcells by done.
    rewrite written_blank; [done|]. intros v Hv [= Hvy Hvx].
    destruct Hgap as [Hgap|Hgap].
    + apply (gap_slot_not_looked_up X_axis values v Hx Hv).
      simpl. by rewrite Hvx, Nat2Z.id.
    + apply (gap_slot_not_looked_up Y_axis values v Hy Hv).
      simpl. by rewrite Hvy, Nat2Z.id.
  - intros j p Hj Hp.
    destruct (slot_lookup_index X_axis values j p Hx Hj Hp)
      as ((v & Hv & Hpv) & Hindex).
    destruct (Hheld v Hv) as (i & j' & Hcell & Hval).
    injection Hcell as _ Hcx. simpl in Hpv, Hindex.
    rewrite Hpv, Hindex in Hcx. apply Nat2Z.inj in Hcx as <-.
    by exists i, v.
  - intros i p Hi Hp.
    destruct (slot_lookup_index Y_axis values i p Hy Hi Hp)
      as ((v & Hv & Hpv) & Hindex).
    destruct (Hheld v Hv) as (i' & j & Hcell & Hval).
    injection Hcell as Hcy _. simpl in Hpv, Hindex.
    rewrite Hpv, Hindex in Hcy. apply Nat2Z.inj in Hcy as <-.
    by exists j, v.
Qed.

Lemma gap_lines_blank_witness :
  exists g : Grid,
    build_grid example_values = Some g /\
    cell g 0 2 = Some " "%string /\ cell g 1 2 = Some " "%string.
Proof.
  destruct (gap_lines_blank example_values) as (g & Hg & Hgap & _).
  - intros v Hv. apply list_elem_of_In in Hv. simpl in Hv.
    destruct Hv as [<-|[<-|[<-|[<-|[]]]]]; simpl; lia.
  - vm_compute. repeat constructor; intros H; inversion H; subst;
      repeat match goal with
             | H : _ ∈ _ :: _ |- _ => inversion H; clear H; subst
             | H : _ ∈ [] |- _ => inversion H
             end.
  - exists g. split; [exact Hg|].
    split; apply Hgap; simpl; first [lia | by left].
Defined.
